(** * Shenandoah uncommit thread

    A shallow embedding of
    [src/hotspot/share/gc/shenandoah/shenandoahUncommitThread.cpp]:
    the controller loop [run_service], the work detector [has_work], the
    wake-up operations [notify_soft_max_changed] and
    [notify_explicit_gc_requested], and the uncommit pass [uncommit].

    Conventions.
    - [size_t] values are integers in [Z]; the one [size_t] sum the file
      computes, [shrink_until + region_size_bytes], wraps modulo [2^64].
    - A [double] value (a time in seconds) is the rational it denotes, in
      [Q]; comparisons are exact, and the result of an operation on doubles
      is rounded to the nearest binary64 value, ties to even
      ([round_to_double]).
    - The heap is shared with mutator and collector threads.  What they do
      while the pass runs is an explicit argument, a [schedule] of heap
      transformers applied at the points where the pass does not hold the
      heap lock. *)

From Stdlib Require Import ZArith QArith Qround Qpower Lia Lqa Bool Floats.
From stdpp Require Import base list.

Local Open Scope Z_scope.

(** ** Numbers *)

(** [size_t] arithmetic on a 64-bit target. *)
Definition size_t_wrap (z : Z) : Z := z mod 2 ^ 64.

(** [a < b] on doubles. *)
Definition Qltb (a b : Q) : bool := negb (Qle_bool b a).

(** *** IEEE 754 binary64 rounding

    [2 ^ e], for any integer [e]. *)
Definition pow2 (e : Z) : Q := (2 ^ e)%Q.

(** The exponent of the binade of [q > 0]: [2 ^ Qlog2 q <= q < 2 ^ (Qlog2 q + 1)]. *)
Definition Qlog2 (q : Q) : Z :=
  if Qle_bool 1 q then Z.log2 (Qfloor q) else - Z.log2_up (Qceiling (/ q)).

(** The integer nearest to [x], the even one of the two when [x] is half way. *)
Definition round_half_even (x : Q) : Z :=
  let f := Qfloor x in
  match (x - inject_Z f ?= 1 # 2)%Q with
  | Lt => f
  | Gt => f + 1
  | Eq => if Z.even f then f else f + 1
  end.

(** The double nearest to [q > 0]: a mantissa of 53 bits at the exponent of
    the binade of [q], or at the least exponent [-1074] when [q] is
    subnormal.  What lies beyond the largest double rounds to infinity, which
    [2 ^ 1024] stands for: it compares with every double as infinity does. *)
Definition round_positive (q : Q) : Q :=
  let L := Qlog2 q in
  if 1024 <=? L then pow2 1024
  else let e := Z.max (L - 52) (-1074) in
       (inject_Z (round_half_even (q / pow2 e)) * pow2 e)%Q.

Definition round_to_double (q : Q) : Q :=
  match (q ?= 0)%Q with
  | Eq => 0%Q
  | Gt => round_positive q
  | Lt => (- round_positive (- q))%Q
  end.

(** [q] is (the value of) a double. *)
Definition is_double (q : Q) : Prop := (round_to_double q == q)%Q.

(** [a - b] and [a / b] on doubles ([b] is a non-zero constant wherever the
    file divides), and [(double) n] for an unsigned integer. *)
Definition double_sub (a b : Q) : Q := round_to_double (a - b).
Definition double_div (a b : Q) : Q := round_to_double (a / b).
Definition double_of_uintx (n : Z) : Q := round_to_double (inject_Z n).

(** The value of a binary64 float of Rocq, to compare [round_to_double]
    with the arithmetic of [PrimFloat]. *)
Definition float_value (x : float) : Q :=
  match Prim2SF x with
  | S754_zero _ => 0
  | S754_finite s m e => (if s then -1 else 1) * inject_Z (Zpos m) * pow2 e
  | S754_infinity s => (if s then -1 else 1) * pow2 1024
  | S754_nan => 0
  end%Q.

(** Operands at which [round_to_double] is compared with binary64
    subtraction and division: those of the delays 141, 300 and 1000 ms,
    subnormal and huge values, and a grid of quotients. *)
Definition binary64_samples : list (float * float) :=
  [(141, 1000); (0x1.3333333333334p-2, 0x1.3333333333333p-2); (1, 10);
   (0x1.7e43c8800759cp+996, 0x1.56e1fc2f8f359p-997);
   (0x1.56e1fc2f8f359p-997, 0x1.7e43c8800759cp+996);
   (0x0.012688b70e62bp-1022, 3); (0x0.0000000000001p-1022, 2);
   (0x1.fffffffffffffp+1023, -0x1.fffffffffffffp+1023);
   (-7.25, 0x1.8cccccccccccdp+1); (9007199254740992, 3)]%float
  ++ flat_map (fun i => map (fun j => (PrimFloat.div i 7, PrimFloat.div j 1000))
                            [1; 2; 3; 141; 300; 999; 1000; 4096]%float)
              [1; 2; 3; 5; 7; 100; 12345; 300000]%float.

Definition agrees_with_binary64 (ab : float * float) : bool :=
  Qeq_bool (double_sub (float_value ab.1) (float_value ab.2))
           (float_value (PrimFloat.sub ab.1 ab.2)) &&
  Qeq_bool (double_div (float_value ab.1) (float_value ab.2))
           (float_value (PrimFloat.div ab.1 ab.2)).

(** [(int64_t) d]: conversion of a double to an integer truncates toward
    zero. *)
Definition double_to_int64 (d : Q) : Z := Z.quot (Qnum d) (Zpos (Qden d)).

(** ** Regions and the heap *)

(** What the thread reads of a [ShenandoahHeapRegion]. *)
Record ShenandoahHeapRegion : Type := mkRegion {
  is_empty_committed : bool;
  empty_time : Q
}.

Global Instance ShenandoahHeapRegion_inhabited : Inhabited ShenandoahHeapRegion :=
  populate (mkRegion false 0%Q).

(** What the thread reads of the [ShenandoahHeap]. *)
Record ShenandoahHeap : Type := mkHeap {
  regions : list ShenandoahHeapRegion;
  committed : Z;
  soft_max_capacity : Z;
  min_capacity : Z
}.

Definition num_regions (h : ShenandoahHeap) : nat := length (regions h).

(** [get_region(i)].  The thread only indexes below [num_regions]; the
    lookup is total so that a schedule which changes the region count is
    still given a meaning (the default region is never eligible). *)
Definition get_region (h : ShenandoahHeap) (i : nat) : ShenandoahHeapRegion :=
  regions h !!! i.

(** ** Edge flags *)

Inductive ShenandoahSharedFlag : Type := UNSET | SET.

(** Modelled from the spec: [ShenandoahSharedFlag::try_set] is declared in
    shenandoahSharedVariables.hpp, which is not among the sources.  It sets
    the flag if it is clear and reports whether this call made the
    transition. *)
Definition try_set (f : ShenandoahSharedFlag) : bool * ShenandoahSharedFlag :=
  match f with
  | UNSET => (true, SET)
  | SET => (false, SET)
  end.

(** Modelled from the spec: [ShenandoahSharedFlag::try_unset], from the same
    header.  It clears the flag if it is set and reports whether this call
    saw it set. *)
Definition try_unset (f : ShenandoahSharedFlag) : bool * ShenandoahSharedFlag :=
  match f with
  | SET => (true, UNSET)
  | UNSET => (false, UNSET)
  end.

(** ** The thread *)

(** The two edge flags, and the number of [notify_all] calls made on the
    thread's monitor [_lock] (a ghost counter: the monitor itself is not
    modelled). *)
Record ShenandoahUncommitThread : Type := mkThread {
  _soft_max_changed : ShenandoahSharedFlag;
  _explicit_gc_requested : ShenandoahSharedFlag;
  notify_all_calls : nat
}.

Definition notify_soft_max_changed (t : ShenandoahUncommitThread)
  : ShenandoahUncommitThread :=
  let '(won, f) := try_set (_soft_max_changed t) in
  if won
  then mkThread f (_explicit_gc_requested t) (S (notify_all_calls t))
  else mkThread f (_explicit_gc_requested t) (notify_all_calls t).

Definition notify_explicit_gc_requested (t : ShenandoahUncommitThread)
  : ShenandoahUncommitThread :=
  let '(won, f) := try_set (_explicit_gc_requested t) in
  if won
  then mkThread (_soft_max_changed t) f (S (notify_all_calls t))
  else mkThread (_soft_max_changed t) f (notify_all_calls t).

(** ** Other threads *)

(** One burst of activity of the other threads: any change of the heap. *)
Definition interference : Type := ShenandoahHeap -> ShenandoahHeap.

(** What the other threads do during one pass.  The pass reads the heap
    without the lock at the eligibility check of region [i], then takes the
    heap lock ([at_lock i] runs in between), and after releasing it pauses
    ([at_pause i] runs before the next region is read).  [before_pass] runs
    between [has_work] and the first read of the pass.  The two reads of the
    unlocked check are taken together, and so are the reads of [has_work]. *)
Record schedule : Type := mkSchedule {
  before_pass : interference;
  at_lock : nat -> interference;
  at_pause : nat -> interference
}.

(** No other thread touches the heap. *)
Definition quiet : schedule :=
  mkSchedule (fun h => h) (fun _ h => h) (fun _ h => h).

(** What the pass did at a region it read. *)
Inductive outcome : Type :=
| Skipped       (* the unlocked check failed *)
| LostRace      (* no longer empty committed under the lock *)
| Uncommitted   (* make_uncommitted was called *)
| BudgetBreak.  (* the budget guard ended the pass *)

Global Instance outcome_eq_dec : EqDecision outcome.
Proof. solve_decision. Defined.

(** An entry of the pass's log (ghost): the region index, the region as the
    unlocked check of line 118 read it, and what the pass did. *)
Record event : Type := mkEvent {
  region_index : nat;
  seen_unlocked : ShenandoahHeapRegion;
  what : outcome
}.

Section Thread.

(** The flag [ShenandoahUncommitDelay] (milliseconds, a [uintx]) and
    [ShenandoahHeapRegion::region_size_bytes()], both fixed at start-up and
    declared outside this file. *)
Variable ShenandoahUncommitDelay : Z.
Variable region_size_bytes : Z.

(** Modelled from the spec: [ShenandoahHeapRegion::make_uncommitted] is
    defined in shenandoahHeapRegion.cpp, which is not among the sources.  It
    releases the backing memory of the region, one region's worth of
    committed bytes, and the region is no longer empty committed. *)
Definition make_uncommitted (h : ShenandoahHeap) (i : nat) : ShenandoahHeap :=
  mkHeap (<[i := mkRegion false (empty_time (get_region h i))]> (regions h))
         (committed h - region_size_bytes)
         (soft_max_capacity h)
         (min_capacity h).

(** The test of lines 82 and 118. *)
Definition eligible (shrink_before : Q) (r : ShenandoahHeapRegion) : bool :=
  is_empty_committed r && Qltb (empty_time r) shrink_before.

(** ** has_work *)

(** The loop of lines 80-85 over regions [0], [1], ... *)
Fixpoint has_work_scan (shrink_before : Q) (rs : list ShenandoahHeapRegion) : bool :=
  match rs with
  | [] => false
  | r :: rs' =>
      if is_empty_committed r && Qltb (empty_time r) shrink_before
      then true
      else has_work_scan shrink_before rs'
  end.

Definition has_work (shrink_before : Q) (shrink_until : Z) (h : ShenandoahHeap) : bool :=
  if committed h <=? shrink_until
  then false
  else has_work_scan shrink_before (regions h).

(** ** uncommit *)

(** The state of the loop of lines 116-130: the heap, [count], and the log of
    what was done at each region read so far (ghost). *)
Record pass_state : Type := mkPass {
  pass_heap : ShenandoahHeap;
  count : nat;
  pass_log : list event
}.

(** The loop with [i] regions left to visit; it acts on region [i - 1]. *)
Fixpoint uncommit_loop (s : schedule) (shrink_before : Q) (shrink_until : Z)
    (i : nat) (st : pass_state) : pass_state :=
  match i with
  | O => st
  | S j =>
      let h := pass_heap st in
      let r := get_region h j in
      if is_empty_committed r && Qltb (empty_time r) shrink_before then
        (* ShenandoahHeapLocker locker(_heap->lock()) *)
        let h1 := at_lock s j h in
        if is_empty_committed (get_region h1 j) then
          if committed h1 <? size_t_wrap (shrink_until + region_size_bytes) then
            mkPass h1 (count st) (pass_log st ++ [mkEvent j r BudgetBreak])
          else
            uncommit_loop s shrink_before shrink_until j
              (mkPass (at_pause s j (make_uncommitted h1 j))
                      (S (count st))
                      (pass_log st ++ [mkEvent j r Uncommitted]))
        else
          uncommit_loop s shrink_before shrink_until j
            (mkPass (at_pause s j h1) (count st) (pass_log st ++ [mkEvent j r LostRace]))
      else
        uncommit_loop s shrink_before shrink_until j
          (mkPass (at_pause s j h) (count st) (pass_log st ++ [mkEvent j r Skipped]))
  end.

(** The result of a pass: the loop's final state and whether
    [notify_heap_changed] was called. *)
Record pass_result : Type := mkResult {
  final : pass_state;
  heap_changed_notified : bool
}.

Definition uncommit (s : schedule) (shrink_before : Q) (shrink_until : Z)
    (h : ShenandoahHeap) : pass_result :=
  let st := uncommit_loop s shrink_before shrink_until (num_regions h)
              (mkPass h O []) in
  mkResult st (0 <? count st)%nat.

(** The regions a log says were uncommitted, in the order it happened. *)
Definition uncommitted_in (l : list event) : list nat :=
  region_index <$> filter (fun e => what e = Uncommitted) l.

(** ** run_service *)

Definition shrink_period : Q :=
  double_div (double_div (double_of_uintx ShenandoahUncommitDelay) 1000) 10.

(** What one iteration of the loop of lines 49-68 did. *)
Record iteration : Type := mkIteration {
  thread_after : ShenandoahUncommitThread;
  heap_after : ShenandoahHeap;
  last_shrink_time_after : Q;
  saw_soft_max_changed : bool;
  saw_explicit_gc_requested : bool;
  (* the arguments of has_work, when the iteration acted *)
  pass_parameters : option (Q * Z);
  (* the pass, when uncommit was called *)
  pass : option pass_result;
  (* the argument of locker.wait *)
  wait_timeout : Z
}.

(** The body of the loop: [current] is what [os::elapsedTime()] returned. *)
Definition run_service_iteration (s : schedule) (current last_shrink_time : Q)
    (t : ShenandoahUncommitThread) (h : ShenandoahHeap) : iteration :=
  let '(soft_max_changed, f1) := try_unset (_soft_max_changed t) in
  let '(explicit_gc_requested, f2) := try_unset (_explicit_gc_requested t) in
  let t' := mkThread f1 f2 (notify_all_calls t) in
  let timeout := double_to_int64 shrink_period in
  if soft_max_changed || explicit_gc_requested
     || Qltb shrink_period (double_sub current last_shrink_time) then
    let shrink_before :=
      if soft_max_changed || explicit_gc_requested
      then current
      else double_sub current
             (double_div (double_of_uintx ShenandoahUncommitDelay) 1000) in
    let shrink_until :=
      if soft_max_changed then soft_max_capacity h else min_capacity h in
    if has_work shrink_before shrink_until h then
      let p := uncommit s shrink_before shrink_until (before_pass s h) in
      mkIteration t' (pass_heap (final p)) current
        soft_max_changed explicit_gc_requested
        (Some (shrink_before, shrink_until)) (Some p) timeout
    else
      mkIteration t' h last_shrink_time
        soft_max_changed explicit_gc_requested
        (Some (shrink_before, shrink_until)) None timeout
  else
    mkIteration t' h last_shrink_time
      soft_max_changed explicit_gc_requested None None timeout.

(** The two kinds of notification, and the delivery of one to the thread. *)
Inductive notification : Type := SoftMaxChanged | ExplicitGCRequested.

Definition deliver (t : ShenandoahUncommitThread) (n : notification)
  : ShenandoahUncommitThread :=
  match n with
  | SoftMaxChanged => notify_soft_max_changed t
  | ExplicitGCRequested => notify_explicit_gc_requested t
  end.

(** What one turn of the loop meets: the clock reading, what the other
    threads do during the pass, and the notifications that arrive while the
    thread is parked at the end of the iteration. *)
Record tick : Type := mkTick {
  clock : Q;
  others : schedule;
  arriving : list notification
}.

(** The loop of lines 49-68, for as long as [should_terminate()] is false:
    one entry of [ticks] per iteration. *)
Fixpoint run_service_loop (ticks : list tick) (last_shrink_time : Q)
    (t : ShenandoahUncommitThread) (h : ShenandoahHeap) : list iteration :=
  match ticks with
  | [] => []
  | k :: ticks' =>
      let it := run_service_iteration (others k) (clock k) last_shrink_time t h in
      it :: run_service_loop ticks' (last_shrink_time_after it)
              (foldl deliver (thread_after it) (arriving k)) (heap_after it)
  end.

(** [start] is the clock reading of line 48. *)
Definition run_service (start : Q) (ticks : list tick)
    (t : ShenandoahUncommitThread) (h : ShenandoahHeap) : list iteration :=
  run_service_loop ticks start t h.

(** ** Properties of schedules *)

(** Every burst of the schedule satisfies [P]. *)
Definition each_burst (P : interference -> Prop) (s : schedule) : Prop :=
  P (before_pass s) /\ (forall i, P (at_lock s i)) /\ (forall i, P (at_pause s i)).

(** The other threads commit memory but never uncommit it: uncommitting is
    this thread's job alone. *)
Definition commits_only (s : schedule) : Prop :=
  each_burst (fun f => forall h, committed h <= committed (f h)) s.

(** Region [i] stays eligible whatever the other threads do. *)
Definition stays_eligible (shrink_before : Q) (i : nat) (s : schedule) : Prop :=
  each_burst (fun f => forall h, eligible shrink_before (get_region h i) = true ->
                                 eligible shrink_before (get_region (f h) i) = true) s.

(** The other threads never make the empty time of region [i] older than
    [shrink_before]: time stamps only move forward. *)
Definition stays_young (shrink_before : Q) (i : nat) (s : schedule) : Prop :=
  each_burst (fun f => forall h, (shrink_before <= empty_time (get_region h i))%Q ->
                                 (shrink_before <= empty_time (get_region (f h) i))%Q) s.

(** ** Definitions used in the statements *)

(** The value of a [size_t] that did not wrap. *)
Definition fits_size_t (z : Z) : Prop := 0 <= z < 2 ^ 64.

(** The body of the loop at region [j], read off [uncommit_loop]: what is done
    and the heap the next region is read from (the last heap, on a break). *)
Definition visit (s : schedule) (sb : Q) (su : Z) (j : nat) (h : ShenandoahHeap)
  : outcome * ShenandoahHeap :=
  if eligible sb (get_region h j) then
    let h1 := at_lock s j h in
    if is_empty_committed (get_region h1 j) then
      if committed h1 <? size_t_wrap (su + region_size_bytes)
      then (BudgetBreak, h1)
      else (Uncommitted, at_pause s j (make_uncommitted h1 j))
    else (LostRace, at_pause s j h1)
  else (Skipped, at_pause s j h).

(** A pass over regions [i - 1] down to [0] of [h], with a fresh counter and
    log. *)
Definition run (s : schedule) (sb : Q) (su : Z) (i : nat) (h : ShenandoahHeap)
  : pass_state :=
  uncommit_loop s sb su i (mkPass h O []).

(** What [try_unset] would report on flag [f]. *)
Definition observed (f : ShenandoahSharedFlag) : bool := (try_unset f).1.

(** The flag a notification raises, and whether an iteration saw it. *)
Definition flag_of (n : notification) (t : ShenandoahUncommitThread)
  : ShenandoahSharedFlag :=
  match n with
  | SoftMaxChanged => _soft_max_changed t
  | ExplicitGCRequested => _explicit_gc_requested t
  end.

Definition saw (n : notification) (it : iteration) : bool :=
  match n with
  | SoftMaxChanged => saw_soft_max_changed it
  | ExplicitGCRequested => saw_explicit_gc_requested it
  end.

(** The indices below [n] of the regions of [h] that pass the check of line
    118, highest first. *)
Definition eligible_from_top (sb : Q) (h : ShenandoahHeap) (n : nat) : list nat :=
  filter (fun i => eligible sb (get_region h i) = true) (rev (seq 0 n)).

(** How many whole regions the committed size of [h] is above [su]: what the
    guard of line 121 lets a pass uncommit. *)
Definition budget (su : Z) (h : ShenandoahHeap) : nat :=
  Z.to_nat ((committed h - su) / region_size_bytes).

(** ** Example inputs *)

(** Regions of 256K.  A heap of twelve regions, eleven of them committed:
    seven in use, four that have been empty since time 0, and one that is
    uncommitted already; the min capacity is ten regions. *)
Definition example_region_size : Z := 262144.

Definition in_use : ShenandoahHeapRegion := mkRegion false 0%Q.
Definition released : ShenandoahHeapRegion := mkRegion false 0%Q.
Definition empty_since (t : Q) : ShenandoahHeapRegion := mkRegion true t.

Definition example_heap : ShenandoahHeap :=
  mkHeap (replicate 7 in_use ++ replicate 4 (empty_since 0) ++ [released])
         (11 * example_region_size)
         (20 * example_region_size)
         (10 * example_region_size).

(** The same heap with one more region, committed and in use. *)
Definition roomy_heap : ShenandoahHeap :=
  mkHeap (replicate 8 in_use ++ replicate 4 (empty_since 0) ++ [released])
         (12 * example_region_size)
         (20 * example_region_size)
         (10 * example_region_size).

(** Seven committed regions: five in use, region 5 empty since 9.5, region
    6 empty since 8; the min capacity is five regions. *)
Definition aged_heap : ShenandoahHeap :=
  mkHeap (replicate 5 in_use ++ [empty_since (19 # 2); empty_since 8])
         (7 * example_region_size)
         (7 * example_region_size)
         (5 * example_region_size).

Definition idle_thread : ShenandoahUncommitThread := mkThread UNSET UNSET O.

(** A schedule in which region [i] is allocated from and emptied again at
    time [t] while the pass waits for the heap lock at that region. *)
Definition refill_at_lock (i : nat) (t : Q) : schedule :=
  mkSchedule (fun h => h)
             (fun j h =>
                if (j =? i)%nat
                then mkHeap (<[i := empty_since t]> (regions h)) (committed h)
                            (soft_max_capacity h) (min_capacity h)
                else h)
             (fun _ h => h).

(** ** Rounding to a double *)

Lemma pow2_pos e : (0 < pow2 e)%Q.
Proof. apply Qpower_0_lt. reflexivity. Qed.

Lemma pow2_add a b : (pow2 (a + b) == pow2 a * pow2 b)%Q.
Proof. apply Qpower_plus. discriminate. Qed.

Lemma pow2_le a b : a <= b -> (pow2 a <= pow2 b)%Q.
Proof. intros H. apply Qpower_le_compat_l; [exact H|discriminate]. Qed.

Lemma pow2_Z k : 0 <= k -> (inject_Z (2 ^ k) == pow2 k)%Q.
Proof. intros H. apply (Zpower_Qpower 2 k H). Qed.

Lemma Qlog2_spec q :
  (0 < q)%Q -> (pow2 (Qlog2 q) <= q)%Q /\ (q < pow2 (Qlog2 q + 1))%Q.
Proof.
  intros Hq. unfold Qlog2. destruct (Qle_bool 1 q) eqn:E.
  - apply Qle_bool_iff in E.
    assert (Hf : 1 <= Qfloor q).
    { change 1 with (Qfloor 1). apply Qfloor_resp_le. exact E. }
    destruct (Z.log2_spec (Qfloor q)) as [Hlo Hhi]; [lia|].
    pose proof (Z.log2_nonneg (Qfloor q)) as Hnn.
    split.
    + rewrite <- pow2_Z by exact Hnn.
      eapply Qle_trans; [|apply Qfloor_le]. rewrite <- Zle_Qle. exact Hlo.
    + rewrite <- pow2_Z by lia.
      eapply Qlt_le_trans; [apply Qlt_floor|].
      rewrite <- Zle_Qle. replace (Z.succ (Z.log2 (Qfloor q))) with (Z.log2 (Qfloor q) + 1) in Hhi by lia. lia.
  - assert (Hlt : (q < 1)%Q).
    { apply Qnot_le_lt. intros H. apply Qle_bool_iff in H. congruence. }
    assert (Hinv : (1 < / q)%Q).
    { apply Qlt_shift_inv_l; [exact Hq|]. rewrite Qmult_1_l. exact Hlt. }
    assert (Hc : 1 < Qceiling (/ q)).
    { apply Z.lt_le_trans with (Qfloor 1 + 1); [reflexivity|].
      assert (Qfloor 1 + 1 - 1 < Qceiling (/q)); [|lia].
      rewrite Zlt_Qlt. eapply Qlt_le_trans; [|apply Qle_ceiling].
      simpl. exact Hinv. }
    destruct (Z.log2_up_spec (Qceiling (/ q)) Hc) as [Hlo Hhi].
    pose proof (Z.log2_up_pos (Qceiling (/ q)) Hc) as Hpos.
    set (k := Z.log2_up (Qceiling (/ q))) in *.
    assert (Hqinv : (q == / / q)%Q) by (symmetry; apply Qinv_involutive).
    split.
    + (* 2^-k <= q *)
      unfold pow2. rewrite Qpower_opp. fold (pow2 k).
      assert (H : (/ pow2 k <= / / q)%Q).
      { apply Qle_shift_inv_l.
        - apply Qinv_lt_0_compat. exact Hq.
        - rewrite Qmult_comm. apply Qle_shift_div_r; [apply pow2_pos|].
          rewrite Qmult_1_l, <- pow2_Z by lia.
          eapply Qle_trans; [apply Qle_ceiling|].
          rewrite <- Zle_Qle. exact Hhi. }
      rewrite Qinv_involutive in H. exact H.
    + replace (- k + 1) with (- (k - 1)) by lia.
      unfold pow2. rewrite Qpower_opp. fold (pow2 (k - 1)).
      assert (Hb : (pow2 (k - 1) < / q)%Q).
      { rewrite <- pow2_Z by lia.
        eapply Qle_lt_trans; [|apply Qceiling_lt].
        rewrite <- Zle_Qle. replace (Z.pred k) with (k - 1) in Hlo by lia. lia. }
      assert (H : (/ / q < / pow2 (k - 1))%Q).
      { apply (proj1 (Qinv_lt_contravar (pow2 (k - 1)) (/ q) (pow2_pos _)
                         (Qinv_lt_0_compat _ Hq))).
        exact Hb. }
      rewrite Qinv_involutive in H. exact H.
Qed.

Lemma Qlog2_mono x y : (0 < x)%Q -> (x <= y)%Q -> Qlog2 x <= Qlog2 y.
Proof.
  intros Hx Hxy.
  assert (Hy : (0 < y)%Q) by (eapply Qlt_le_trans; eassumption).
  destruct (Qlog2_spec x Hx) as [Hlo _].
  destruct (Qlog2_spec y Hy) as [_ Hhi].
  destruct (Z.le_gt_cases (Qlog2 x) (Qlog2 y)) as [H|H]; [exact H|].
  exfalso. assert (Hp : (pow2 (Qlog2 y + 1) <= pow2 (Qlog2 x))%Q)
    by (apply pow2_le; lia).
  lra.
Qed.

Lemma round_half_even_bounds x :
  Qfloor x <= round_half_even x <= Qfloor x + 1.
Proof.
  unfold round_half_even.
  destruct (x - inject_Z (Qfloor x) ?= 1 # 2)%Q; [destruct (Z.even _)| |]; lia.
Qed.

Lemma round_half_even_Z z : round_half_even (inject_Z z) = z.
Proof.
  unfold round_half_even. rewrite Qfloor_Z.
  destruct (Qcompare_spec (inject_Z z - inject_Z z) (1 # 2)) as [H|H|H];
    [exfalso; lra|reflexivity|exfalso; lra].
Qed.

Lemma round_half_even_mono x y :
  (x <= y)%Q -> round_half_even x <= round_half_even y.
Proof.
  intros Hxy. pose proof (Qfloor_resp_le x y Hxy) as Hf.
  pose proof (round_half_even_bounds x) as Bx.
  pose proof (round_half_even_bounds y) as By.
  destruct (Z.eq_dec (Qfloor x) (Qfloor y)) as [E|E]; [|lia].
  unfold round_half_even in *. rewrite <- E in *.
  destruct (Qcompare_spec (x - inject_Z (Qfloor x)) (1 # 2)) as [Hx|Hx|Hx];
    destruct (Qcompare_spec (y - inject_Z (Qfloor x)) (1 # 2)) as [Hy|Hy|Hy];
    try destruct (Z.even (Qfloor x)); try lia; exfalso; lra.
Qed.

Lemma Qdiv_le_pos x y c : (0 < c)%Q -> (x <= y)%Q -> (x / c <= y / c)%Q.
Proof.
  intros Hc Hxy. unfold Qdiv. apply Qmult_le_compat_r; [exact Hxy|].
  apply Qlt_le_weak, Qinv_lt_0_compat, Hc.
Qed.

(** Rounding the scaled value keeps it on its side of a power of two. *)
Lemma scaled_upper q e k :
  (0 <= k) -> (q <= pow2 (k + e))%Q ->
  (inject_Z (round_half_even (q / pow2 e)) * pow2 e <= pow2 (k + e))%Q.
Proof.
  intros Hk Hq. rewrite pow2_add.
  apply Qmult_le_compat_r; [|apply Qlt_le_weak, pow2_pos].
  rewrite <- (pow2_Z k) by exact Hk. rewrite <- Zle_Qle.
  rewrite <- (round_half_even_Z (2 ^ k)). apply round_half_even_mono.
  rewrite (pow2_Z k) by exact Hk.
  apply Qle_shift_div_r; [apply pow2_pos|]. rewrite <- pow2_add. exact Hq.
Qed.

Lemma scaled_lower q e k :
  (0 <= k) -> (pow2 (k + e) <= q)%Q ->
  (pow2 (k + e) <= inject_Z (round_half_even (q / pow2 e)) * pow2 e)%Q.
Proof.
  intros Hk Hq. rewrite pow2_add.
  apply Qmult_le_compat_r; [|apply Qlt_le_weak, pow2_pos].
  rewrite <- (pow2_Z k) by exact Hk. rewrite <- Zle_Qle.
  rewrite <- (round_half_even_Z (2 ^ k)) at 1. apply round_half_even_mono.
  rewrite (pow2_Z k) by exact Hk.
  apply Qle_shift_div_l; [apply pow2_pos|]. rewrite <- pow2_add. exact Hq.
Qed.

Lemma round_positive_nonneg q : (0 < q)%Q -> (0 <= round_positive q)%Q.
Proof.
  intros Hq. unfold round_positive.
  destruct (1024 <=? Qlog2 q); [apply Qlt_le_weak, pow2_pos|].
  apply Qmult_le_0_compat; [|apply Qlt_le_weak, pow2_pos].
  change 0%Q with (inject_Z 0). rewrite <- Zle_Qle.
  rewrite <- (round_half_even_Z 0) at 1. apply round_half_even_mono.
  apply Qle_shift_div_l; [apply pow2_pos|]. 
  rewrite Qmult_0_l. apply Qlt_le_weak, Hq.
Qed.

Lemma round_positive_mono x y :
  (0 < x)%Q -> (x <= y)%Q -> (round_positive x <= round_positive y)%Q.
Proof.
  intros Hx Hxy.
  assert (Hy : (0 < y)%Q) by (eapply Qlt_le_trans; eassumption).
  pose proof (Qlog2_mono x y Hx Hxy) as HL.
  destruct (Qlog2_spec x Hx) as [Hxlo Hxhi].
  destruct (Qlog2_spec y Hy) as [Hylo Hyhi].
  unfold round_positive.
  destruct (Z.leb_spec 1024 (Qlog2 y)) as [Hby|Hby].
  - destruct (Z.leb_spec 1024 (Qlog2 x)) as [Hbx|Hbx]; [apply Qle_refl|].
    set (e := Z.max (Qlog2 x - 52) (-1074)).
    replace 1024 with ((1024 - e) + e) by lia.
    apply scaled_upper; [lia|].
    replace (1024 - e + e) with 1024 by lia.
    apply Qlt_le_weak. eapply Qlt_le_trans; [exact Hxhi|]. apply pow2_le. lia.
  - destruct (Z.leb_spec 1024 (Qlog2 x)) as [Hbx|Hbx]; [lia|].
    set (ex := Z.max (Qlog2 x - 52) (-1074)).
    set (ey := Z.max (Qlog2 y - 52) (-1074)).
    destruct (Z.eq_dec ex ey) as [E|E].
    + rewrite E. apply Qmult_le_compat_r; [|apply Qlt_le_weak, pow2_pos].
      rewrite <- Zle_Qle. apply round_half_even_mono.
      apply Qdiv_le_pos; [apply pow2_pos|exact Hxy].
    + (* x lies in a lower binade *)
      assert (Hey : ey = Qlog2 y - 52) by lia.
      assert (Hk : 0 <= Z.max (Qlog2 x + 1) ex - ex) by lia.
      apply Qle_trans with (pow2 (Z.max (Qlog2 x + 1) ex)).
      * replace (Z.max (Qlog2 x + 1) ex) with ((Z.max (Qlog2 x + 1) ex - ex) + ex) by lia.
        apply scaled_upper; [exact Hk|].
        replace (Z.max (Qlog2 x + 1) ex - ex + ex) with (Z.max (Qlog2 x + 1) ex) by lia.
        apply Qlt_le_weak. eapply Qlt_le_trans; [exact Hxhi|]. apply pow2_le. lia.
      * apply Qle_trans with (pow2 (52 + ey)).
        -- apply pow2_le. lia.
        -- apply scaled_lower; [lia|]. replace (52 + ey) with (Qlog2 y) by lia.
           exact Hylo.
Qed.

Lemma round_to_double_mono x y :
  (x <= y)%Q -> (round_to_double x <= round_to_double y)%Q.
Proof.
  intros Hxy. unfold round_to_double.
  destruct (Qcompare_spec x 0) as [Hx|Hx|Hx];
    destruct (Qcompare_spec y 0) as [Hy|Hy|Hy]; try (exfalso; lra).
  - apply Qle_refl.
  - apply round_positive_nonneg. exact Hy.
  - pose proof (round_positive_nonneg (- x)). lra.
  - apply Qopp_le_compat. apply round_positive_mono; lra.
  - pose proof (round_positive_nonneg (- x)).
    pose proof (round_positive_nonneg y). lra.
  - apply round_positive_mono; assumption.
Qed.

Lemma Qlog2_unique x a :
  (pow2 a <= x)%Q -> (x < pow2 (a + 1))%Q -> Qlog2 x = a.
Proof.
  intros Hlo Hhi.
  assert (Hx : (0 < x)%Q) by (eapply Qlt_le_trans; [apply (pow2_pos a)|exact Hlo]).
  destruct (Qlog2_spec x Hx) as [Llo Lhi].
  destruct (Z.lt_trichotomy (Qlog2 x) a) as [H|[H|H]]; [|exact H|]; exfalso.
  - assert (Hp : (pow2 (Qlog2 x + 1) <= pow2 a)%Q) by (apply pow2_le; lia). lra.
  - assert (Hp : (pow2 (a + 1) <= pow2 (Qlog2 x))%Q) by (apply pow2_le; lia). lra.
Qed.

Lemma round_half_even_proper x y : (x == y)%Q -> round_half_even x = round_half_even y.
Proof.
  intros H. apply Z.le_antisymm; apply round_half_even_mono; rewrite H; apply Qle_refl.
Qed.

Lemma round_positive_proper x y :
  (0 < x)%Q -> (x == y)%Q -> (round_positive x == round_positive y)%Q.
Proof.
  intros Hx H. apply Qle_antisym; apply round_positive_mono; try rewrite <- H;
    try exact Hx; rewrite H; apply Qle_refl.
Qed.

Lemma scale_cancel (m : Z) e : (inject_Z m * pow2 e / pow2 e == inject_Z m)%Q.
Proof. field. pose proof (pow2_pos e). lra. Qed.

(** A mantissa of at most 53 bits at an exponent in range is a double. *)
Lemma round_positive_fix m e :
  0 < m <= 2 ^ 53 -> -1074 <= e <= 971 -> (m < 2 ^ 52 -> e = -1074) ->
  (round_positive (inject_Z m * pow2 e) == inject_Z m * pow2 e)%Q.
Proof.
  intros Hm He Hsub.
  destruct (Z.log2_spec m) as [Llo Lhi]; [lia|].
  pose proof (Z.log2_nonneg m) as Lnn.
  set (l := Z.log2 m) in *.
  assert (HL : Qlog2 (inject_Z m * pow2 e) = l + e).
  { apply Qlog2_unique.
    - rewrite pow2_add. apply Qmult_le_compat_r; [|apply Qlt_le_weak, pow2_pos].
      rewrite <- (pow2_Z l) by lia. rewrite <- Zle_Qle. exact Llo.
    - replace (l + e + 1) with ((l + 1) + e) by lia. rewrite pow2_add.
      apply Qmult_lt_r; [apply pow2_pos|].
      rewrite <- (pow2_Z (l + 1)) by lia. rewrite <- Zlt_Qlt.
      replace (Z.succ l) with (l + 1) in Lhi by lia. exact Lhi. }
  assert (Hl53 : l <= 53).
  { unfold l. replace 53 with (Z.log2 (2 ^ 53)) by (apply Z.log2_pow2; lia).
    apply Z.log2_le_mono. lia. }
  unfold round_positive. rewrite HL.
  destruct (Z.eq_dec m (2 ^ 53)) as [E|E].
  - (* the mantissa carried into the next binade *)
    assert (l = 53) by (subst m l; apply Z.log2_pow2; lia).
    assert (Hx : (inject_Z m * pow2 e == inject_Z (2 ^ 52) * pow2 (e + 1))%Q).
    { rewrite E, (pow2_Z 53), (pow2_Z 52) by lia. rewrite <- !pow2_add.
      replace (53 + e) with (52 + (e + 1)) by lia. reflexivity. }
    destruct (Z.leb_spec 1024 (l + e)) as [Hb|Hb].
    + rewrite E, (pow2_Z 53) by lia. rewrite <- pow2_add.
      replace (53 + e) with 1024 by lia. reflexivity.
    + replace (Z.max (l + e - 52) (-1074)) with (e + 1) by lia.
      rewrite (round_half_even_proper _ (inject_Z (2 ^ 52))).
      * rewrite round_half_even_Z. symmetry. exact Hx.
      * rewrite Hx. apply scale_cancel.
  - assert (Hl52 : l <= 52).
    { assert (Hlt : m < 2 ^ 53) by lia.
      apply Z.log2_lt_pow2 in Hlt; [fold l in Hlt; lia|lia]. }
    destruct (Z.leb_spec 1024 (l + e)) as [Hb|Hb]; [lia|].
    assert (He' : Z.max (l + e - 52) (-1074) = e).
    { destruct (Z.lt_ge_cases m (2 ^ 52)) as [Hs|Hs].
      - rewrite (Hsub Hs). lia.
      - assert (52 <= l) by (apply Z.log2_le_pow2; [lia|exact Hs]). lia. }
    rewrite He'.
    rewrite (round_half_even_proper _ (inject_Z m)) by apply scale_cancel.
    rewrite round_half_even_Z. reflexivity.
Qed.

Lemma round_to_double_opp q :
  (round_to_double (- q) == - round_to_double q)%Q.
Proof.
  unfold round_to_double.
  destruct (Qcompare_spec q 0) as [H|H|H];
    destruct (Qcompare_spec (- q) 0) as [H'|H'|H']; try (exfalso; lra).
  - reflexivity.
  - rewrite Qopp_involutive. reflexivity.
  - apply Qopp_comp. apply round_positive_proper; [lra|]. apply Qopp_involutive.
Qed.

Lemma round_positive_idempotent q :
  (0 < q)%Q -> (round_to_double (round_positive q) == round_positive q)%Q.
Proof.
  intros Hq.
  destruct (Qlog2_spec q Hq) as [Llo Lhi].
  assert (Hfix : forall m e, 0 <= m <= 2 ^ 53 -> -1074 <= e <= 971 ->
                   (m < 2 ^ 52 -> e = -1074) ->
                   (round_to_double (inject_Z m * pow2 e) == inject_Z m * pow2 e)%Q).
  { intros m e Hm He Hs. unfold round_to_double.
    pose proof (pow2_pos e) as Hp.
    destruct (Qcompare_spec (inject_Z m * pow2 e) 0) as [H|H|H].
    - symmetry. exact H.
    - exfalso. assert ((0 <= inject_Z m * pow2 e)%Q); [|lra].
      apply Qmult_le_0_compat; [|lra]. change 0%Q with (inject_Z 0).
      rewrite <- Zle_Qle. lia.
    - apply round_positive_fix; try assumption.
      destruct (Z.eq_dec m 0) as [->|]; [|lia].
      exfalso. rewrite Qmult_0_l in H. lra. }
  unfold round_positive at 1 2.
  destruct (Z.leb_spec 1024 (Qlog2 q)) as [Hb|Hb].
  - assert (Hx : (pow2 1024 == inject_Z (2 ^ 53) * pow2 971)%Q).
    { rewrite (pow2_Z 53) by lia. rewrite <- pow2_add. reflexivity. }
    unfold round_to_double.
    destruct (Qcompare_spec (pow2 1024) 0) as [H|H|H];
      try (pose proof (pow2_pos 1024); exfalso; lra).
    rewrite (round_positive_proper _ _ H Hx), Hx.
    apply round_positive_fix; lia.
  - set (e := Z.max (Qlog2 q - 52) (-1074)).
    apply Hfix.
    + split.
      * rewrite <- (round_half_even_Z 0) at 1. apply round_half_even_mono.
        apply Qle_shift_div_l; [apply pow2_pos|].
        change (inject_Z 0) with 0%Q. rewrite Qmult_0_l. lra.
      * rewrite <- (round_half_even_Z (2 ^ 53)). apply round_half_even_mono.
        rewrite (pow2_Z 53) by lia.
        apply Qle_shift_div_r; [apply pow2_pos|]. rewrite <- pow2_add.
        apply Qlt_le_weak. eapply Qlt_le_trans; [exact Lhi|]. apply pow2_le. lia.
    + lia.
    + intros Hs. destruct (Z.eq_dec e (-1074)) as [|Hne]; [assumption|].
      exfalso. assert (He : e = Qlog2 q - 52) by lia.
      assert (2 ^ 52 <= round_half_even (q / pow2 e)); [|lia].
      rewrite <- (round_half_even_Z (2 ^ 52)) at 1. apply round_half_even_mono.
      rewrite (pow2_Z 52) by lia.
      apply Qle_shift_div_l; [apply pow2_pos|]. rewrite <- pow2_add.
      replace (52 + e) with (Qlog2 q) by lia. exact Llo.
Qed.

Lemma round_to_double_idempotent q :
  (round_to_double (round_to_double q) == round_to_double q)%Q.
Proof.
  unfold round_to_double at 2 3.
  destruct (Qcompare_spec q 0) as [H|H|H].
  - reflexivity.
  - rewrite round_to_double_opp, round_positive_idempotent by lra. reflexivity.
  - apply round_positive_idempotent. exact H.
Qed.

(** [round_to_double] gives what binary64 subtraction and division give on
    the sample operands. *)
Lemma round_to_double_agrees_with_binary64 :
  forallb agrees_with_binary64 binary64_samples = true.
Proof. vm_compute. reflexivity. Qed.

(** A double stays a double, and what is not negative is not rounded below
    zero. *)
Lemma round_to_double_is_double q : is_double (round_to_double q).
Proof. apply round_to_double_idempotent. Qed.

Lemma round_to_double_nonneg q : (0 <= q)%Q -> (0 <= round_to_double q)%Q.
Proof.
  intros H. change 0%Q with (round_to_double 0) at 1.
  apply round_to_double_mono. exact H.
Qed.

(** ** Basic facts *)

Lemma Qltb_lt (a b : Q) : Qltb a b = true <-> (a < b)%Q.
Proof.
  unfold Qltb. rewrite negb_true_iff.
  split.
  - intros H. apply Qnot_le_lt. intros Hle.
    apply Qle_bool_iff in Hle. congruence.
  - intros H. destruct (Qle_bool b a) eqn:E; [|reflexivity].
    apply Qle_bool_iff in E. exfalso. exact (Qlt_not_le _ _ H E).
Qed.

Lemma Qltb_ge (a b : Q) : Qltb a b = false <-> (b <= a)%Q.
Proof.
  unfold Qltb. rewrite negb_false_iff. apply Qle_bool_iff.
Qed.

Lemma eligible_iff (sb : Q) (r : ShenandoahHeapRegion) :
  eligible sb r = true <-> is_empty_committed r = true /\ (empty_time r < sb)%Q.
Proof.
  unfold eligible. rewrite andb_true_iff, Qltb_lt. reflexivity.
Qed.

Lemma get_region_default (h : ShenandoahHeap) (i : nat) :
  (num_regions h <= i)%nat -> get_region h i = mkRegion false 0%Q.
Proof.
  intros Hi. unfold get_region, num_regions in *.
  rewrite list_lookup_total_alt.
  rewrite (lookup_ge_None_2 (regions h) i) by lia. reflexivity.
Qed.

Lemma eligible_in_range (sb : Q) (h : ShenandoahHeap) (i : nat) :
  eligible sb (get_region h i) = true -> (i < num_regions h)%nat.
Proof.
  intros H. destruct (decide (i < num_regions h)%nat) as [|Hn]; [assumption|].
  rewrite get_region_default in H by lia. discriminate.
Qed.

Lemma has_work_scan_iff (sb : Q) (rs : list ShenandoahHeapRegion) :
  has_work_scan sb rs = true <->
  exists i r, rs !! i = Some r /\ eligible sb r = true.
Proof.
  induction rs as [|r rs IH]; simpl.
  - split; [discriminate|]. intros (i & r & H & _). destruct i; discriminate.
  - fold (eligible sb r). destruct (eligible sb r) eqn:E.
    + split; [|reflexivity]. intros _. exists O, r. auto.
    + rewrite IH. split.
      * intros (i & r' & H & He). exists (S i), r'. auto.
      * intros (i & r' & H & He). destruct i as [|i]; simpl in H.
        -- injection H as ->. congruence.
        -- exists i, r'. auto.
Qed.

(** What a positive answer of [has_work] tells. *)
Lemma has_work_inv (sb : Q) (su : Z) (h : ShenandoahHeap) :
  has_work sb su h = true ->
  su < committed h /\
  exists i, (i < num_regions h)%nat /\ eligible sb (get_region h i) = true.
Proof.
  unfold has_work. destruct (Z.leb_spec (committed h) su) as [Hle|Hlt];
    [discriminate|].
  intros H. apply has_work_scan_iff in H. destruct H as (i & r & Hi & He).
  split; [assumption|]. exists i.
  unfold get_region, num_regions.
  rewrite (list_lookup_total_correct _ _ _ Hi).
  split; [|assumption]. apply lookup_lt_Some in Hi. exact Hi.
Qed.

(** C3. [has_work] returns true exactly when the committed size is above
    [shrink_until] and some region of the heap is empty committed with an
    empty time before [shrink_before]; so it returns false when
    [committed <= shrink_until], and otherwise it returns true if and only if
    there is such a region. *)
Theorem has_work_iff (shrink_before : Q) (shrink_until : Z) (h : ShenandoahHeap) :
  has_work shrink_before shrink_until h = true <->
  shrink_until < committed h /\
  exists i, (i < num_regions h)%nat /\
            is_empty_committed (get_region h i) = true /\
            (empty_time (get_region h i) < shrink_before)%Q.
Proof.
  split.
  - intros H. apply has_work_inv in H. destruct H as (Hlt & i & Hi & He).
    split; [exact Hlt|]. exists i. apply eligible_iff in He. tauto.
  - intros (Hlt & i & Hi & Hc & Ht). unfold has_work.
    destruct (Z.leb_spec (committed h) shrink_until) as [Hle|_]; [lia|].
    apply has_work_scan_iff.
    exists i, (get_region h i). split.
    + unfold get_region. apply list_lookup_lookup_total_lt. exact Hi.
    + apply eligible_iff. auto.
Qed.

(** ** The uncommit loop, one region at a time *)

Lemma size_t_wrap_fits (z : Z) : fits_size_t z -> size_t_wrap z = z.
Proof. intros H. unfold size_t_wrap. apply Z.mod_small. exact H. Qed.

Lemma uncommit_loop_acc s sb su i st :
  uncommit_loop s sb su i st =
  mkPass (pass_heap (run s sb su i (pass_heap st)))
         (count st + count (run s sb su i (pass_heap st)))
         (pass_log st ++ pass_log (run s sb su i (pass_heap st))).
Proof.
  unfold run. revert st. induction i as [|j IH]; intros [h c l]; simpl.
  - rewrite Nat.add_0_r, app_nil_r. reflexivity.
  - destruct (is_empty_committed (get_region h j) && Qltb (empty_time (get_region h j)) sb).
    + destruct (is_empty_committed (get_region (at_lock s j h) j)).
      * destruct (committed (at_lock s j h) <? size_t_wrap (su + region_size_bytes)).
        -- simpl. rewrite Nat.add_0_r. reflexivity.
        -- rewrite IH. symmetry. rewrite IH. simpl.
           rewrite <- app_assoc. f_equal. lia.
      * rewrite IH. symmetry. rewrite IH. simpl.
        rewrite <- app_assoc. f_equal.
    + rewrite IH. symmetry. rewrite IH. simpl.
      rewrite <- app_assoc. f_equal.
Qed.

(** How [run] unfolds at its first region. *)
Lemma run_S s sb su j h :
  run s sb su (S j) h =
  let e := mkEvent j (get_region h j) (visit s sb su j h).1 in
  match (visit s sb su j h).1 with
  | BudgetBreak => mkPass (visit s sb su j h).2 O [e]
  | Uncommitted =>
      let st := run s sb su j (visit s sb su j h).2 in
      mkPass (pass_heap st) (S (count st)) (e :: pass_log st)
  | _ =>
      let st := run s sb su j (visit s sb su j h).2 in
      mkPass (pass_heap st) (count st) (e :: pass_log st)
  end.
Proof.
  unfold run at 1, visit, eligible. simpl.
  destruct (is_empty_committed (get_region h j) && Qltb (empty_time (get_region h j)) sb).
  - destruct (is_empty_committed (get_region (at_lock s j h) j)).
    + destruct (committed (at_lock s j h) <? size_t_wrap (su + region_size_bytes)).
      * reflexivity.
      * rewrite uncommit_loop_acc. reflexivity.
    + rewrite uncommit_loop_acc. reflexivity.
  - rewrite uncommit_loop_acc. reflexivity.
Qed.

Lemma uncommit_final s sb su h :
  final (uncommit s sb su h) = run s sb su (num_regions h) h.
Proof. reflexivity. Qed.

(** The four ways a visit can go. *)
Lemma visit_cases s sb su j h :
  (eligible sb (get_region h j) = false /\
   visit s sb su j h = (Skipped, at_pause s j h)) \/
  (eligible sb (get_region h j) = true /\
   is_empty_committed (get_region (at_lock s j h) j) = false /\
   visit s sb su j h = (LostRace, at_pause s j (at_lock s j h))) \/
  (eligible sb (get_region h j) = true /\
   is_empty_committed (get_region (at_lock s j h) j) = true /\
   committed (at_lock s j h) < size_t_wrap (su + region_size_bytes) /\
   visit s sb su j h = (BudgetBreak, at_lock s j h)) \/
  (eligible sb (get_region h j) = true /\
   is_empty_committed (get_region (at_lock s j h) j) = true /\
   size_t_wrap (su + region_size_bytes) <= committed (at_lock s j h) /\
   visit s sb su j h =
     (Uncommitted, at_pause s j (make_uncommitted (at_lock s j h) j))).
Proof.
  unfold visit. destruct (eligible sb (get_region h j)); [|auto].
  destruct (is_empty_committed (get_region (at_lock s j h) j)); [|auto].
  destruct (Z.ltb_spec (committed (at_lock s j h))
                       (size_t_wrap (su + region_size_bytes))); auto 10.
Qed.

(** Case analysis on the visit of region [j] from heap [h], after [run_S]. *)
Ltac visit_at s sb su j h :=
  let E := fresh "Evisit" in
  destruct (visit_cases s sb su j h)
    as [(?Helig & E)|[(?Helig & ?Hlocked & E)|
        [(?Helig & ?Hlocked & ?Hguard & E)|(?Helig & ?Hlocked & ?Hguard & E)]]];
  rewrite E in *; cbn [fst snd] in *.

Lemma get_region_make_uncommitted_ne h i j :
  i <> j -> get_region (make_uncommitted h j) i = get_region h i.
Proof.
  intros Hne. unfold get_region, make_uncommitted. simpl.
  apply list_lookup_total_insert_ne. congruence.
Qed.

Lemma empty_time_make_uncommitted h i j :
  empty_time (get_region (make_uncommitted h j) i) = empty_time (get_region h i).
Proof.
  destruct (decide (i = j)) as [->|Hne].
  - unfold get_region, make_uncommitted. simpl.
    destruct (decide (j < length (regions h))%nat) as [Hlt|Hge].
    + rewrite list_lookup_total_insert_eq by exact Hlt. reflexivity.
    + rewrite list_insert_ge by lia. reflexivity.
  - rewrite get_region_make_uncommitted_ne by exact Hne. reflexivity.
Qed.

(** ** The lower bound *)

Lemma visit_lower_bound s sb su j h :
  commits_only s ->
  fits_size_t (su + region_size_bytes) ->
  su <= committed h ->
  su <= committed (visit s sb su j h).2.
Proof.
  intros (_ & Hlock & Hpause) Hfits Hle.
  pose proof (Hlock j h) as H1.
  visit_at s sb su j h.
  - pose proof (Hpause j h). lia.
  - pose proof (Hpause j (at_lock s j h)). lia.
  - lia.
  - rewrite size_t_wrap_fits in Hguard by exact Hfits.
    pose proof (Hpause j (make_uncommitted (at_lock s j h) j)) as H2.
    simpl in H2. lia.
Qed.

Lemma run_lower_bound s sb su i h :
  commits_only s ->
  fits_size_t (su + region_size_bytes) ->
  su <= committed h ->
  su <= committed (pass_heap (run s sb su i h)).
Proof.
  intros Hs Hfits. revert h. induction i as [|j IH]; intros h Hle.
  - exact Hle.
  - rewrite run_S. cbv zeta.
    pose proof (visit_lower_bound s sb su j h Hs Hfits Hle) as Hv.
    destruct (visit s sb su j h).1; simpl; auto.
Qed.

(** ** One iteration of the controller loop *)

(** The pass of an iteration, when there is one. *)
Lemma iteration_pass s current last t h p :
  pass (run_service_iteration s current last t h) = Some p ->
  let sb := if observed (_soft_max_changed t) || observed (_explicit_gc_requested t)
            then current
            else double_sub current
                   (double_div (double_of_uintx ShenandoahUncommitDelay) 1000) in
  let su := if observed (_soft_max_changed t)
            then soft_max_capacity h else min_capacity h in
  has_work sb su h = true /\
  p = uncommit s sb su (before_pass s h) /\
  pass_parameters (run_service_iteration s current last t h) = Some (sb, su) /\
  heap_after (run_service_iteration s current last t h) = pass_heap (final p).
Proof.
  unfold run_service_iteration, observed.
  destruct (try_unset (_soft_max_changed t)) as [sm f1].
  destruct (try_unset (_explicit_gc_requested t)) as [gc f2]. cbn [fst].
  destruct (sm || gc || Qltb _ _); [|discriminate].
  match goal with |- context [has_work ?a ?b h] => destruct (has_work a b h) eqn:Hw end;
    [|discriminate].
  simpl. intros [= <-]. auto.
Qed.

(** C2. When an iteration acts, the pair it passes to [has_work] (and to
    [uncommit], if that is called) is: [shrink_before] is the current time
    when [try_unset] reported the soft-max flag or the explicit-GC flag, and
    the current time minus the uncommit delay in seconds otherwise, both the
    division by 1000 and the subtraction being those of doubles;
    [shrink_until] is the soft max capacity whenever the soft-max flag was
    reported, whatever the explicit-GC flag, and the min capacity otherwise. *)
Theorem pass_parameters_exact s current last t h shrink_before shrink_until :
  pass_parameters (run_service_iteration s current last t h)
    = Some (shrink_before, shrink_until) ->
  let it := run_service_iteration s current last t h in
  saw_soft_max_changed it = (try_unset (_soft_max_changed t)).1 /\
  saw_explicit_gc_requested it = (try_unset (_explicit_gc_requested t)).1 /\
  (saw_soft_max_changed it = true \/ saw_explicit_gc_requested it = true ->
     shrink_before = current) /\
  (saw_soft_max_changed it = false -> saw_explicit_gc_requested it = false ->
     shrink_before =
       double_sub current
         (double_div (double_of_uintx ShenandoahUncommitDelay) 1000)) /\
  (saw_soft_max_changed it = true -> shrink_until = soft_max_capacity h) /\
  (saw_soft_max_changed it = false -> shrink_until = min_capacity h) /\
  (forall p, pass it = Some p ->
     p = uncommit s shrink_before shrink_until (before_pass s h)).
Proof.
  unfold run_service_iteration.
  destruct (try_unset (_soft_max_changed t)) as [sm f1].
  destruct (try_unset (_explicit_gc_requested t)) as [gc f2]. cbn [fst].
  destruct (sm || gc || Qltb _ _); [|discriminate].
  match goal with |- context [has_work ?a ?b h] => destruct (has_work a b h) end;
    simpl; intros [= <- <-];
    (repeat split; try reflexivity;
     [ intros [-> | ->]; [reflexivity | rewrite orb_true_r; reflexivity]
     | intros -> ->; reflexivity
     | intros ->; reflexivity
     | intros ->; reflexivity
     | intros p [= <-] || discriminate ]); reflexivity.
Qed.

(** C1. When an iteration runs an uncommit pass, with parameters
    [(shrink_before, shrink_until)], the committed size after the pass is at
    least [shrink_until]: at least the soft max capacity when the soft-max
    flag was observed, and at least the min capacity otherwise (a periodic or
    an explicit-GC pass).  The other threads may do anything meanwhile except
    uncommit memory, and [shrink_until + region_size_bytes] is assumed not to
    wrap. *)
Theorem committed_lower_bound s current last t h p :
  commits_only s ->
  fits_size_t (soft_max_capacity h + region_size_bytes) ->
  fits_size_t (min_capacity h + region_size_bytes) ->
  pass (run_service_iteration s current last t h) = Some p ->
  exists shrink_before shrink_until,
    p = uncommit s shrink_before shrink_until (before_pass s h) /\
    heap_after (run_service_iteration s current last t h) = pass_heap (final p) /\
    shrink_until <= committed (pass_heap (final p)) /\
    (_soft_max_changed t = SET -> shrink_until = soft_max_capacity h) /\
    (_soft_max_changed t = UNSET -> shrink_until = min_capacity h).
Proof.
  intros Hs Hsoft Hmin Hp.
  apply iteration_pass in Hp. cbv zeta in Hp.
  destruct Hp as (Hw & -> & _ & Hheap).
  eexists _, _. split; [reflexivity|]. split; [exact Hheap|].
  apply has_work_inv in Hw. destruct Hw as [Hlt _].
  split.
  - rewrite uncommit_final. apply run_lower_bound.
    + exact Hs.
    + destruct (observed (_soft_max_changed t)); assumption.
    + destruct Hs as (Hb & _). pose proof (Hb h). lia.
  - split; intros ->; reflexivity.
Qed.

(** ** Age *)

Lemma elem_of_uncommitted_in (i : nat) (l : list event) :
  i ∈ uncommitted_in l <->
  exists e, e ∈ l /\ region_index e = i /\ what e = Uncommitted.
Proof.
  unfold uncommitted_in. rewrite list_elem_of_fmap. split.
  - intros (e & -> & He). apply list_elem_of_filter in He. destruct He. eauto.
  - intros (e & He & <- & Hw). exists e. split; [reflexivity|].
    apply list_elem_of_filter. auto.
Qed.

(** What the log says of an uncommitted region: the unlocked check had found
    it eligible. *)
Lemma uncommitted_was_eligible s sb su i h e :
  e ∈ pass_log (run s sb su i h) ->
  what e = Uncommitted ->
  eligible sb (seen_unlocked e) = true.
Proof.
  revert h. induction i as [|j IH]; intros h.
  - simpl. intros He. inversion He.
  - rewrite run_S. cbv zeta.
    visit_at s sb su j h; simpl; intros He Hw;
      apply elem_of_cons in He as [->|He]; simpl in *;
      try discriminate; eauto.
    inversion He.
Qed.

Lemma young_not_eligible sb r :
  (sb <= empty_time r)%Q -> eligible sb r = false.
Proof.
  intros H. unfold eligible. apply Qltb_ge in H. rewrite H. apply andb_false_r.
Qed.

(** A region that is and stays too young is skipped whenever it is read. *)
Lemma young_region_skipped s sb su i n h e :
  stays_young sb i s ->
  (sb <= empty_time (get_region h i))%Q ->
  e ∈ pass_log (run s sb su n h) ->
  region_index e = i ->
  what e = Skipped.
Proof.
  intros (_ & Hlock & Hpause). revert h.
  induction n as [|j IH]; intros h Hy.
  - simpl. intros He. inversion He.
  - rewrite run_S. cbv zeta.
    assert (Hy1 : (sb <= empty_time (get_region (at_lock s j h) i))%Q)
      by (apply Hlock; exact Hy).
    visit_at s sb su j h; simpl; intros He Hi;
      (apply elem_of_cons in He as [->|He]; simpl in *;
       [| try solve [inversion He]]).
    + reflexivity.
    + apply (IH (at_pause s j h)); auto.
    + subst j. rewrite young_not_eligible in Helig by exact Hy. discriminate.
    + apply (IH (at_pause s j (at_lock s j h))); auto.
    + subst j. rewrite young_not_eligible in Helig by exact Hy. discriminate.
    + subst j. rewrite young_not_eligible in Helig by exact Hy. discriminate.
    + apply (IH (at_pause s j (make_uncommitted (at_lock s j h) j))); auto.
      apply Hpause. rewrite empty_time_make_uncommitted. exact Hy1.
Qed.

(** C4, amended.  In a periodic pass (neither flag was set when the iteration
    consumed them), every region the pass uncommits had been read by the
    unlocked check as empty committed with an empty time before the
    threshold, [current - ShenandoahUncommitDelay / 1000.0] as doubles
    compute it; and a region whose empty time is at or after that threshold
    when the iteration starts is not uncommitted, as long as the other
    threads do not move its empty time back before the threshold.  (What the
    empty time becomes after the unlocked check is not looked at.) *)
Theorem periodic_age_respect s current last t h p :
  _soft_max_changed t = UNSET ->
  _explicit_gc_requested t = UNSET ->
  pass (run_service_iteration s current last t h) = Some p ->
  let threshold :=
    double_sub current
      (double_div (double_of_uintx ShenandoahUncommitDelay) 1000) in
  (forall e, e ∈ pass_log (final p) -> what e = Uncommitted ->
     is_empty_committed (seen_unlocked e) = true /\
     (empty_time (seen_unlocked e) < threshold)%Q) /\
  (forall i, stays_young threshold i s ->
     (threshold <= empty_time (get_region h i))%Q ->
     i ∉ uncommitted_in (pass_log (final p))).
Proof.
  intros Hsm Hgc Hp threshold.
  apply iteration_pass in Hp. rewrite Hsm, Hgc in Hp. cbn in Hp.
  destruct Hp as (_ & -> & _). rewrite uncommit_final. split.
  - intros e He Hw. apply eligible_iff.
    eapply uncommitted_was_eligible; eassumption.
  - intros i Hy Hi Hin. apply elem_of_uncommitted_in in Hin.
    destruct Hin as (e & He & Hidx & Hw).
    assert (what e = Skipped) as Hsk.
    { eapply young_region_skipped; [exact Hy| |exact He|exact Hidx].
      destruct Hy as (Hb & _). apply Hb. exact Hi. }
    congruence.
Qed.

(** ** Direction *)

Lemma descending_S (j : nat) : rev (seq 0 (S j)) = j :: rev (seq 0 j).
Proof. rewrite seq_S, rev_app_distr. reflexivity. Qed.

Lemma uncommitted_in_cons (e : event) (l : list event) :
  uncommitted_in (e :: l) =
  match what e with
  | Uncommitted => region_index e :: uncommitted_in l
  | _ => uncommitted_in l
  end.
Proof.
  unfold uncommitted_in. rewrite filter_cons.
  destruct (what e) eqn:E; destruct (decide (what e = Uncommitted)) as [H|H];
    try congruence; reflexivity.
Qed.

(** The log lists the regions in the order [i - 1], [i - 2], ..., as far as
    the pass went. *)
Lemma log_indices_prefix s sb su i h :
  (region_index <$> pass_log (run s sb su i h)) `prefix_of` rev (seq 0 i).
Proof.
  revert h. induction i as [|j IH]; intros h.
  - apply prefix_nil.
  - rewrite run_S, descending_S. cbv zeta.
    visit_at s sb su j h; simpl; apply prefix_cons; auto using prefix_nil.
Qed.

Lemma log_index_lt s sb su i h e :
  e ∈ pass_log (run s sb su i h) -> (region_index e < i)%nat.
Proof.
  intros He.
  assert (Hin : region_index e ∈ rev (seq 0 i)).
  { eapply elem_of_prefix; [|apply log_indices_prefix].
    apply list_elem_of_fmap_2. exact He. }
  apply list_elem_of_In, in_rev, in_seq in Hin. lia.
Qed.

(** A region that is and stays eligible is uncommitted before any region
    below it. *)
Lemma eligible_region_goes_first s sb su i j n h :
  stays_eligible sb i s ->
  eligible sb (get_region h i) = true ->
  (j < i < n)%nat ->
  j ∈ uncommitted_in (pass_log (run s sb su n h)) ->
  exists l1 l2 l3,
    uncommitted_in (pass_log (run s sb su n h)) = l1 ++ i :: l2 ++ j :: l3.
Proof.
  intros (_ & Hlock & Hpause). revert h.
  induction n as [|m IH]; intros h He Hlt; [lia|].
  assert (He1 : eligible sb (get_region (at_lock s m h) i) = true)
    by (apply Hlock; exact He).
  rewrite run_S. cbv zeta.
  destruct (decide (m = i)) as [->|Hne].
  - (* the pass is at region i *)
    visit_at s sb su i h; simpl; try congruence.
    + apply eligible_iff in He1. destruct He1. congruence.
    + rewrite uncommitted_in_cons. simpl. intros Hj. inversion Hj.
    + rewrite uncommitted_in_cons. simpl. intros Hj.
      apply elem_of_cons in Hj as [Hj|Hj]; [lia|].
      apply list_elem_of_split in Hj as (l2 & l3 & ->).
      exists [], l2, l3. reflexivity.
  - (* the pass is above region i *)
    assert (Hlt' : (j < i < m)%nat) by lia.
    visit_at s sb su m h; simpl; rewrite uncommitted_in_cons; simpl; intros Hj.
    + apply (IH (at_pause s m h)); auto.
    + apply (IH (at_pause s m (at_lock s m h))); auto.
    + inversion Hj.
    + apply elem_of_cons in Hj as [Hj|Hj]; [lia|].
      destruct (IH (at_pause s m (make_uncommitted (at_lock s m h) m)))
        as (l1 & l2 & l3 & Heq); auto.
      { apply Hpause. rewrite get_region_make_uncommitted_ne by lia. exact He1. }
      exists (m :: l1), l2, l3. rewrite Heq. reflexivity.
Qed.

(** C5. A pass reads the regions in the order [N - 1], [N - 2], ... down to
    [0] (as far as it goes), and if region [i] is eligible when the pass
    starts and stays so whatever the other threads do, then any region [j]
    below [i] that the pass uncommits is uncommitted after region [i]. *)
Theorem uncommit_direction s shrink_before shrink_until h :
  let log := pass_log (final (uncommit s shrink_before shrink_until h)) in
  (region_index <$> log) `prefix_of` rev (seq 0 (num_regions h)) /\
  forall i j,
    (j < i)%nat ->
    eligible shrink_before (get_region h i) = true ->
    stays_eligible shrink_before i s ->
    j ∈ uncommitted_in log ->
    exists l1 l2 l3, uncommitted_in log = l1 ++ i :: l2 ++ j :: l3.
Proof.
  cbv zeta. rewrite uncommit_final. split.
  - apply log_indices_prefix.
  - intros i j Hlt He Hs Hj.
    eapply eligible_region_goes_first; eauto.
    split; [exact Hlt|]. eapply eligible_in_range. exact He.
Qed.

(** ** The budget guard *)

(** In the log of a pass a break is the last entry, and every entry before it
    is about a region with a higher index. *)
Lemma budget_break_is_last s sb su n h e :
  e ∈ pass_log (run s sb su n h) ->
  what e = BudgetBreak ->
  exists l0, pass_log (run s sb su n h) = l0 ++ [e] /\
             forall e', e' ∈ l0 -> (region_index e < region_index e')%nat.
Proof.
  revert h. induction n as [|j IH]; intros h.
  - simpl. intros He. inversion He.
  - rewrite run_S. cbv zeta.
    visit_at s sb su j h; simpl; intros He Hw;
      apply elem_of_cons in He as [->|He]; try discriminate.
    1, 2, 5:
      pose proof (log_index_lt _ _ _ _ _ _ He) as Hlt;
      destruct (IH _ He Hw) as (l0 & -> & Hl0);
      eexists (_ :: l0); (split; [reflexivity|]);
      intros e' He'; apply elem_of_cons in He' as [->|He']; simpl; auto.
    + exists []. split; [reflexivity|]. intros e' He'. inversion He'.
    + inversion He.
Qed.

(** C6. When the pass, arriving at region [i], finds it eligible, finds it
    still empty committed under the heap lock, and finds
    [committed < shrink_until + region_size_bytes] there, the pass is over:
    its final heap is the heap it found under the lock, [count] is what it
    was, and the log ends with this break, so no region below [i] is read or
    uncommitted. *)
Theorem budget_guard_breaks s shrink_before shrink_until i st :
  eligible shrink_before (get_region (pass_heap st) i) = true ->
  is_empty_committed (get_region (at_lock s i (pass_heap st)) i) = true ->
  committed (at_lock s i (pass_heap st))
    < size_t_wrap (shrink_until + region_size_bytes) ->
  let st' := uncommit_loop s shrink_before shrink_until (S i) st in
  pass_heap st' = at_lock s i (pass_heap st) /\
  count st' = count st /\
  pass_log st' =
    pass_log st ++ [mkEvent i (get_region (pass_heap st) i) BudgetBreak] /\
  uncommitted_in (pass_log st') = uncommitted_in (pass_log st) /\
  forall e, e ∈ pass_log st' -> e ∈ pass_log st \/ region_index e = i.
Proof.
  intros He Hl Hg. cbv zeta. simpl.
  unfold eligible in He. rewrite He, Hl.
  apply Z.ltb_lt in Hg. rewrite Hg. simpl.
  repeat split; try reflexivity.
  - unfold uncommitted_in. rewrite filter_app. simpl.
    rewrite filter_cons. simpl. rewrite app_nil_r. reflexivity.
  - intros e Hin. apply elem_of_app in Hin as [Hin|Hin]; [auto|].
    apply list_elem_of_singleton in Hin. subst e. auto.
Qed.

(** ** The re-check under the lock *)

(** C10, amended.  When the pass, arriving at region [i], finds it eligible,
    and under the heap lock the region is still empty committed but its empty
    time is no longer before [shrink_before], the region is uncommitted all
    the same, unless the budget guard ends the pass there. *)
Theorem recheck_ignores_age s shrink_before shrink_until i st :
  eligible shrink_before (get_region (pass_heap st) i) = true ->
  is_empty_committed (get_region (at_lock s i (pass_heap st)) i) = true ->
  (shrink_before <= empty_time (get_region (at_lock s i (pass_heap st)) i))%Q ->
  size_t_wrap (shrink_until + region_size_bytes)
    <= committed (at_lock s i (pass_heap st)) ->
  let st' := uncommit_loop s shrink_before shrink_until (S i) st in
  i ∈ uncommitted_in (pass_log st') /\
  st' = uncommit_loop s shrink_before shrink_until i
          (mkPass (at_pause s i (make_uncommitted (at_lock s i (pass_heap st)) i))
                  (S (count st))
                  (pass_log st
                     ++ [mkEvent i (get_region (pass_heap st) i) Uncommitted])).
Proof.
  intros He Hl _ Hg. cbv zeta.
  assert (Heq : uncommit_loop s shrink_before shrink_until (S i) st =
    uncommit_loop s shrink_before shrink_until i
      (mkPass (at_pause s i (make_uncommitted (at_lock s i (pass_heap st)) i))
              (S (count st))
              (pass_log st
                 ++ [mkEvent i (get_region (pass_heap st) i) Uncommitted]))).
  { simpl. unfold eligible in He. rewrite He, Hl.
    apply Z.ltb_ge in Hg. rewrite Hg. reflexivity. }
  split; [|exact Heq].
  rewrite Heq, uncommit_loop_acc. simpl.
  apply elem_of_uncommitted_in.
  exists (mkEvent i (get_region (pass_heap st) i) Uncommitted).
  split; [|auto].
  apply elem_of_app. left. apply elem_of_app. right.
  apply list_elem_of_singleton. reflexivity.
Qed.

(** ** A pass with no other thread at work *)

(** Once the committed size is less than a region above [shrink_until],
    nothing more is uncommitted: regions are skipped until the first eligible
    one, where the guard ends the pass. *)
Lemma quiet_budget_spent sb su n h :
  fits_size_t (su + region_size_bytes) ->
  committed h < su + region_size_bytes ->
  count (run quiet sb su n h) = O /\
  pass_heap (run quiet sb su n h) = h /\
  uncommitted_in (pass_log (run quiet sb su n h)) = [] /\
  forall e, e ∈ pass_log (run quiet sb su n h) ->
            eligible sb (seen_unlocked e) = true -> what e = BudgetBreak.
Proof.
  intros Hfits Hlt. induction n as [|j IH].
  - repeat split. intros e He. inversion He.
  - rewrite run_S. cbv zeta. destruct IH as (IHc & IHh & IHu & IHe).
    visit_at quiet sb su j h; simpl in *.
    + rewrite uncommitted_in_cons. simpl. repeat split; auto.
      intros e He. apply elem_of_cons in He as [->|He]; simpl; [congruence|auto].
    + apply eligible_iff in Helig. destruct Helig. congruence.
    + repeat split. intros e He _.
      apply list_elem_of_singleton in He. subst e. reflexivity.
    + rewrite size_t_wrap_fits in Hguard by exact Hfits. lia.
Qed.

(** With exactly one region's worth above [shrink_until], the highest
    eligible region is uncommitted and it is the only one. *)
Lemma quiet_one_region sb su n h :
  fits_size_t (su + region_size_bytes) ->
  0 < region_size_bytes ->
  committed h = su + region_size_bytes ->
  (exists k, (k < n)%nat /\ eligible sb (get_region h k) = true) ->
  count (run quiet sb su n h) = 1%nat /\
  committed (pass_heap (run quiet sb su n h)) = su /\
  exists i,
    uncommitted_in (pass_log (run quiet sb su n h)) = [i] /\
    (i < n)%nat /\
    eligible sb (get_region h i) = true /\
    (forall k, (i < k < n)%nat -> eligible sb (get_region h k) = false) /\
    (forall e, e ∈ pass_log (run quiet sb su n h) -> region_index e <> i ->
               eligible sb (seen_unlocked e) = true -> what e = BudgetBreak).
Proof.
  intros Hfits Hpos Hc. induction n as [|j IH]; intros (k & Hk & Hek); [lia|].
  rewrite run_S. cbv zeta. visit_at quiet sb su j h; simpl in *.
  - destruct IH as (IHc & IHh & i & IHu & IHi & IHe & IHk & IHb).
    { exists k. split; [|exact Hek].
      destruct (decide (k = j)) as [->|]; [congruence|lia]. }
    rewrite uncommitted_in_cons. simpl. repeat split; auto.
    exists i. repeat split; auto.
    + intros k' Hk'. destruct (decide (k' = j)) as [->|]; [assumption|].
      apply IHk. lia.
    + intros e He Hne Hel. apply elem_of_cons in He as [->|He]; simpl in *;
        [congruence|auto].
  - apply eligible_iff in Helig. destruct Helig. congruence.
  - rewrite size_t_wrap_fits in Hguard by exact Hfits. lia.
  - destruct (quiet_budget_spent sb su j (make_uncommitted h j) Hfits)
      as (Qc & Qh & Qu & Qe); [simpl; lia|].
    rewrite uncommitted_in_cons. simpl. rewrite Qc, Qh, Qu. simpl.
    repeat split; [lia|].
    exists j. repeat split; auto.
    + intros k' Hk'. lia.
    + intros e He Hne Hel. apply elem_of_cons in He as [->|He]; simpl in *;
        [congruence|auto].
Qed.

(** C7, amended.  Min capacity 10 units, 11 units committed, a periodic pass
    that is run (so some region is eligible) and no other thread at work.
    When the unit is the region size, exactly one region is uncommitted, the
    highest eligible one, which brings the committed size down to the min
    capacity, and the guard ends the pass at the next eligible region read.
    Zero regions are uncommitted when the unit is smaller than a region. *)
Theorem budget_guard_scenario current last t h p unit :
  _soft_max_changed t = UNSET ->
  _explicit_gc_requested t = UNSET ->
  0 < unit ->
  min_capacity h = 10 * unit ->
  committed h = 11 * unit ->
  fits_size_t (min_capacity h + region_size_bytes) ->
  pass (run_service_iteration quiet current last t h) = Some p ->
  let threshold :=
    double_sub current
      (double_div (double_of_uintx ShenandoahUncommitDelay) 1000) in
  (unit = region_size_bytes ->
     count (final p) = 1%nat /\
     committed (pass_heap (final p)) = min_capacity h /\
     exists i,
       uncommitted_in (pass_log (final p)) = [i] /\
       eligible threshold (get_region h i) = true /\
       (forall k, (i < k < num_regions h)%nat ->
                  eligible threshold (get_region h k) = false) /\
       (forall e, e ∈ pass_log (final p) -> region_index e <> i ->
                  eligible threshold (seen_unlocked e) = true ->
                  what e = BudgetBreak)) /\
  (unit < region_size_bytes ->
     count (final p) = O /\
     uncommitted_in (pass_log (final p)) = [] /\
     pass_heap (final p) = h).
Proof.
  intros Hsm Hgc Hpos Hmin Hcom Hfits Hp threshold.
  apply iteration_pass in Hp. rewrite Hsm, Hgc in Hp. cbn in Hp.
  fold threshold in Hp. destruct Hp as (Hw & -> & _).
  rewrite uncommit_final. simpl. split.
  - intros ->.
    apply has_work_inv in Hw. destruct Hw as (_ & k & Hk & Hke).
    destruct (quiet_one_region threshold (min_capacity h) (num_regions h) h)
      as (Qc & Qh & i & Qu & Qi & Qe & Qk & Qb); auto; [lia| |].
    { exists k. auto. }
    repeat split; auto. exists i. auto.
  - intros Hlt.
    destruct (quiet_budget_spent threshold (min_capacity h) (num_regions h) h)
      as (Qc & Qh & Qu & _); auto. lia.
Qed.

(** ** Notifications *)

Lemma deliver_set n t : flag_of n t = SET -> deliver t n = t.
Proof. destruct t as [[] [] c], n; simpl; intros H; try discriminate; reflexivity. Qed.

Lemma deliver_unset n t :
  flag_of n t = UNSET ->
  flag_of n (deliver t n) = SET /\
  notify_all_calls (deliver t n) = S (notify_all_calls t).
Proof. destruct t as [[] [] c], n; simpl; intros H; try discriminate; auto. Qed.

Lemma deliver_many_set k n t :
  flag_of n t = SET -> foldl deliver t (replicate k n) = t.
Proof.
  intros H. induction k as [|k IH]; simpl; [reflexivity|].
  rewrite deliver_set by exact H. exact IH.
Qed.

Lemma iteration_consumes n s current last t h :
  saw n (run_service_iteration s current last t h) = observed (flag_of n t) /\
  flag_of n (thread_after (run_service_iteration s current last t h)) = UNSET /\
  notify_all_calls (thread_after (run_service_iteration s current last t h))
    = notify_all_calls t.
Proof.
  unfold run_service_iteration, observed.
  destruct t as [f1 f2 c]. simpl.
  destruct n, f1, f2; simpl;
    repeat match goal with
           | |- context [if ?b then _ else _] => destruct b
           end; simpl; auto.
Qed.

(** C8. A notification calls [notify_all] exactly when its [try_set] made the
    transition; and when [k >= 1] notifications of one kind arrive between
    two iterations of the loop, [notify_all] is called once, the next
    iteration sees the flag, and the iteration after that does not. *)
Theorem notifications_coalesce start k0 k1 k2 k n t h :
  (0 < k)%nat ->
  arriving k0 = replicate k n ->
  arriving k1 = [] ->
  notify_all_calls (deliver t n) =
    (if (try_set (flag_of n t)).1
     then S (notify_all_calls t) else notify_all_calls t) /\
  exists it0 it1 it2,
    run_service start [k0; k1; k2] t h = [it0; it1; it2] /\
    saw n it1 = true /\
    saw n it2 = false /\
    notify_all_calls (thread_after it1) = S (notify_all_calls (thread_after it0)).
Proof.
  intros Hk H0 H1. split.
  { destruct t as [[] [] c], n; reflexivity. }
  unfold run_service. simpl. rewrite H0, H1. simpl.
  eexists _, _, _. split; [reflexivity|].
  set (it0 := run_service_iteration (others k0) (clock k0) start t h).
  destruct (iteration_consumes n (others k0) (clock k0) start t h)
    as (_ & Hu & _). fold it0 in Hu.
  destruct k as [|k]; [lia|]. simpl.
  destruct (deliver_unset n _ Hu) as (Hset & Hcalls).
  rewrite deliver_many_set by exact Hset.
  set (t1 := deliver (thread_after it0) n) in *.
  set (it1 := run_service_iteration (others k1) (clock k1)
                (last_shrink_time_after it0) t1 (heap_after it0)).
  destruct (iteration_consumes n (others k1) (clock k1)
              (last_shrink_time_after it0) t1 (heap_after it0))
    as (Hsaw1 & Hu1 & Hc1). fold it1 in Hsaw1, Hu1, Hc1.
  destruct (iteration_consumes n (others k2) (clock k2)
              (last_shrink_time_after it1) (thread_after it1) (heap_after it1))
    as (Hsaw2 & _ & _).
  rewrite Hsaw1, Hsaw2, Hset, Hu1, Hc1, Hcalls. auto.
Qed.

(** ** The wait *)

Lemma iteration_wait_timeout s current last t h :
  wait_timeout (run_service_iteration s current last t h)
    = double_to_int64 shrink_period.
Proof.
  unfold run_service_iteration.
  destruct (try_unset (_soft_max_changed t)), (try_unset (_explicit_gc_requested t)).
  repeat match goal with
         | |- context [if ?b then _ else _] => destruct b
         end; reflexivity.
Qed.

(** ** More on the pass: how it ends, and what it counts *)

Lemma run_exit s sb su n h :
  (region_index <$> pass_log (run s sb su n h) = rev (seq 0 n) /\
   forall e, e ∈ pass_log (run s sb su n h) -> what e <> BudgetBreak) \/
  (exists l0 e, pass_log (run s sb su n h) = l0 ++ [e] /\ what e = BudgetBreak).
Proof.
  revert h. induction n as [|j IH]; intros h.
  - left. split; [reflexivity|]. intros e He. inversion He.
  - rewrite run_S, descending_S. cbv zeta.
    visit_at s sb su j h; simpl.
    3: { right. exists [], (mkEvent j (get_region h j) BudgetBreak). auto. }
    all: match goal with
         | |- context [run _ _ _ ?k ?h'] => destruct (IH h') as [[Hi Hn]|(l0 & e & -> & Hb)]
         end.
    1, 3, 5: left; (split; [simpl; f_equal; exact Hi|]);
      intros e He; apply elem_of_cons in He as [->|He]; simpl;
      [discriminate|auto].
    all: right; eexists (_ :: l0), e; auto.
Qed.

(** X1. A pass reads every region, from the last down to region 0, unless
    the budget guard ends it: either the log lists all the indices
    [N - 1, ..., 0] and has no break, or its last entry is a break. *)
Theorem pass_ends_at_zero_or_guard s shrink_before shrink_until h :
  let log := pass_log (final (uncommit s shrink_before shrink_until h)) in
  (region_index <$> log = rev (seq 0 (num_regions h)) /\
   forall e, e ∈ log -> what e <> BudgetBreak) \/
  (exists l0 e, log = l0 ++ [e] /\ what e = BudgetBreak).
Proof. cbv zeta. rewrite uncommit_final. apply run_exit. Qed.

Lemma uncommitted_in_lt s sb su n h i :
  i ∈ uncommitted_in (pass_log (run s sb su n h)) -> (i < n)%nat.
Proof.
  intros Hi. apply elem_of_uncommitted_in in Hi as (e & He & <- & _).
  eapply log_index_lt. exact He.
Qed.

Lemma run_count s sb su n h :
  count (run s sb su n h) = length (uncommitted_in (pass_log (run s sb su n h))) /\
  NoDup (uncommitted_in (pass_log (run s sb su n h))) /\
  (count (run s sb su n h) <= n)%nat.
Proof.
  revert h. induction n as [|j IH]; intros h.
  - simpl. split; [reflexivity|]. split; [constructor|lia].
  - rewrite run_S. cbv zeta.
    visit_at s sb su j h; simpl; rewrite uncommitted_in_cons; simpl.
    3: { split; [reflexivity|]. split; [constructor|lia]. }
    all: match goal with
         | |- context [run ?a ?b ?c ?k ?h'] =>
             destruct (IH h') as (Hc & Hn & Hl);
             pose proof (uncommitted_in_lt a b c k h' k) as Hj
         end.
    1, 2: split; [exact Hc|]; split; [exact Hn|lia].
    split; [simpl; rewrite Hc; reflexivity|].
    split; [|lia]. apply NoDup_cons. split; [|exact Hn].
    intros Hin. apply Hj in Hin. lia.
Qed.

(** X2. The counter of a pass is the number of regions it uncommitted, each
    region at most once and never more than there are regions; and
    [notify_heap_changed] is called exactly when at least one region was
    uncommitted.  This holds whatever the other threads do. *)
Theorem count_is_regions_uncommitted s shrink_before shrink_until h :
  let r := uncommit s shrink_before shrink_until h in
  let done := uncommitted_in (pass_log (final r)) in
  count (final r) = length done /\
  NoDup done /\
  (count (final r) <= num_regions h)%nat /\
  (heap_changed_notified r = true <-> done <> []).
Proof.
  cbv zeta. rewrite uncommit_final.
  destruct (run_count s shrink_before shrink_until (num_regions h) h)
    as (Hc & Hn & Hl).
  repeat split; auto.
  - simpl. intros H. apply Nat.ltb_lt in H.
    change (uncommit_loop s shrink_before shrink_until (num_regions h)
              (mkPass h O [])) with (run s shrink_before shrink_until (num_regions h) h) in H.
    rewrite Hc in H. intros E. rewrite E in H. simpl in H. lia.
  - simpl. intros H. apply Nat.ltb_lt.
    change (uncommit_loop s shrink_before shrink_until (num_regions h)
              (mkPass h O [])) with (run s shrink_before shrink_until (num_regions h) h).
    rewrite Hc.
    destruct (uncommitted_in (pass_log (run s shrink_before shrink_until
                                          (num_regions h) h))); [congruence|simpl; lia].
Qed.

(** X9. No pass, periodic or urgent, uncommits a region that the unlocked
    check read with an empty time at or after the clock reading of the
    iteration: with a delay that is not negative, [shrink_before] is never
    after [current], also as doubles are rounded (the clock reading is a
    double). *)
Theorem no_pass_uncommits_the_future s current last t h p e :
  0 <= ShenandoahUncommitDelay ->
  is_double current ->
  pass (run_service_iteration s current last t h) = Some p ->
  e ∈ pass_log (final p) ->
  what e = Uncommitted ->
  is_empty_committed (seen_unlocked e) = true /\
  (empty_time (seen_unlocked e) < current)%Q.
Proof.
  intros Hd Hcur Hp He Hw. apply iteration_pass in Hp. cbv zeta in Hp.
  destruct Hp as (_ & -> & _). rewrite uncommit_final in He.
  apply uncommitted_was_eligible in He; [|exact Hw].
  apply eligible_iff in He. destruct He as [Hc Ht]. split; [exact Hc|].
  destruct (observed (_soft_max_changed t) || observed (_explicit_gc_requested t));
    [exact Ht|].
  eapply Qlt_le_trans; [exact Ht|].
  assert (Hq : (0 <= double_div (double_of_uintx ShenandoahUncommitDelay) 1000)%Q).
  { apply round_to_double_nonneg.
    apply Qle_shift_div_l; [reflexivity|]. rewrite Qmult_0_l.
    apply round_to_double_nonneg.
    change 0%Q with (inject_Z 0). rewrite <- Zle_Qle. exact Hd. }
  unfold is_double in Hcur. rewrite <- Hcur at 2.
  apply round_to_double_mono. lra.
Qed.

(** ** More on a pass with no other thread at work *)

Lemma get_region_make_uncommitted_eq h j :
  (j < num_regions h)%nat ->
  get_region (make_uncommitted h j) j = mkRegion false (empty_time (get_region h j)).
Proof.
  intros Hj. unfold get_region, make_uncommitted. simpl.
  apply list_lookup_total_insert_eq. exact Hj.
Qed.

Lemma quiet_run_frame sb su n h :
  num_regions (pass_heap (run quiet sb su n h)) = num_regions h /\
  soft_max_capacity (pass_heap (run quiet sb su n h)) = soft_max_capacity h /\
  min_capacity (pass_heap (run quiet sb su n h)) = min_capacity h /\
  committed (pass_heap (run quiet sb su n h))
    = committed h - Z.of_nat (count (run quiet sb su n h)) * region_size_bytes /\
  (forall i, i ∈ uncommitted_in (pass_log (run quiet sb su n h)) ->
     eligible sb (get_region h i) = true /\
     is_empty_committed (get_region (pass_heap (run quiet sb su n h)) i) = false) /\
  (forall i, i ∉ uncommitted_in (pass_log (run quiet sb su n h)) ->
     get_region (pass_heap (run quiet sb su n h)) i = get_region h i).
Proof.
  revert h. induction n as [|j IH]; intros h.
  - simpl. do 4 (split; [reflexivity || lia|]).
    split; [intros i Hi; inversion Hi|reflexivity].
  - rewrite run_S. cbv zeta.
    visit_at quiet sb su j h; simpl in *; rewrite uncommitted_in_cons; simpl.
    1, 2: apply IH.
    + do 4 (split; [reflexivity || lia|]).
      split; [intros i Hi; inversion Hi|reflexivity].
    + destruct (IH (make_uncommitted h j)) as (Hn & Hs & Hm & Hc & Hin & Hout).
      pose proof (eligible_in_range _ _ _ Helig) as Hj.
      split; [rewrite Hn; unfold num_regions; simpl; apply length_insert|].
      split; [exact Hs|]. split; [exact Hm|].
      split; [rewrite Hc; simpl; lia|].
      split.
      * intros i Hi. apply elem_of_cons in Hi as [->|Hi].
        -- split; [exact Helig|]. rewrite Hout.
           ++ rewrite get_region_make_uncommitted_eq by exact Hj. reflexivity.
           ++ intros Hjj. apply uncommitted_in_lt in Hjj. lia.
        -- pose proof (uncommitted_in_lt _ _ _ _ _ _ Hi) as Hlt.
           destruct (Hin i Hi) as [He Hf]. split; [|exact Hf].
           rewrite get_region_make_uncommitted_ne in He by lia. exact He.
      * intros i Hi. rewrite Hout.
        -- apply get_region_make_uncommitted_ne. intros ->. apply Hi.
           apply elem_of_cons. auto.
        -- intros Hi'. apply Hi. apply elem_of_cons. auto.
Qed.

(** X3. With no other thread at work, a pass changes nothing but the regions
    it uncommits: the region count and the two capacities are as before, the
    committed size went down by [count] regions' worth, every region it
    uncommitted had passed the check of line 118 in the heap the pass started
    from and is no longer empty committed, and every other region is as it
    was. *)
Theorem quiet_pass_frame shrink_before shrink_until h :
  let r := uncommit quiet shrink_before shrink_until h in
  let h' := pass_heap (final r) in
  let done := uncommitted_in (pass_log (final r)) in
  num_regions h' = num_regions h /\
  soft_max_capacity h' = soft_max_capacity h /\
  min_capacity h' = min_capacity h /\
  committed h' = committed h - Z.of_nat (count (final r)) * region_size_bytes /\
  (forall i, i ∈ done ->
     eligible shrink_before (get_region h i) = true /\
     is_empty_committed (get_region h' i) = false) /\
  (forall i, i ∉ done -> get_region h' i = get_region h i).
Proof. cbv zeta. rewrite uncommit_final. apply quiet_run_frame. Qed.

Lemma eligible_from_top_S sb h j :
  eligible_from_top sb h (S j) =
  if eligible sb (get_region h j)
  then j :: eligible_from_top sb h j
  else eligible_from_top sb h j.
Proof.
  unfold eligible_from_top. rewrite descending_S, filter_cons.
  destruct (eligible sb (get_region h j));
    destruct (decide _) as [H|H]; congruence.
Qed.

Lemma eligible_from_top_ext sb h h' n :
  (forall i, (i < n)%nat -> get_region h' i = get_region h i) ->
  eligible_from_top sb h' n = eligible_from_top sb h n.
Proof.
  induction n as [|j IH]; intros H; [reflexivity|].
  rewrite !eligible_from_top_S, H by lia. rewrite IH; [reflexivity|].
  intros i Hi. apply H. lia.
Qed.

Lemma elem_of_eligible_from_top sb h n i :
  i ∈ eligible_from_top sb h n <->
  (i < n)%nat /\ eligible sb (get_region h i) = true.
Proof.
  unfold eligible_from_top. rewrite list_elem_of_filter, list_elem_of_In, <- in_rev, in_seq.
  split; intros [? ?]; split; auto; lia.
Qed.

Lemma budget_zero su h :
  0 < region_size_bytes ->
  committed h < su + region_size_bytes -> budget su h = O.
Proof.
  intros Hpos Hlt. unfold budget.
  assert ((committed h - su) / region_size_bytes < 1)
    by (apply Z.div_lt_upper_bound; lia).
  lia.
Qed.

Lemma budget_succ su h j :
  0 < region_size_bytes ->
  su + region_size_bytes <= committed h ->
  budget su h = S (budget su (make_uncommitted h j)).
Proof.
  intros Hpos Hle. unfold budget. simpl.
  replace (committed h - su)
    with ((committed h - region_size_bytes - su) + 1 * region_size_bytes) by lia.
  rewrite Z.div_add by lia.
  assert (0 <= (committed h - region_size_bytes - su) / region_size_bytes)
    by (apply Z.div_pos; lia).
  lia.
Qed.

(** With no other thread at work a pass uncommits the highest eligible
    regions, as many as the budget allows. *)
Lemma quiet_run_top sb su n h :
  fits_size_t (su + region_size_bytes) ->
  0 < region_size_bytes ->
  uncommitted_in (pass_log (run quiet sb su n h))
    = take (budget su h) (eligible_from_top sb h n).
Proof.
  intros Hfits Hpos. revert h. induction n as [|j IH]; intros h.
  - change (eligible_from_top sb h 0) with (@nil nat).
    rewrite take_nil. reflexivity.
  - rewrite run_S, eligible_from_top_S. cbv zeta.
    visit_at quiet sb su j h; simpl in *; rewrite uncommitted_in_cons; simpl;
      rewrite Helig.
    + apply IH.
    + apply eligible_iff in Helig. destruct Helig. congruence.
    + rewrite size_t_wrap_fits in Hguard by exact Hfits.
      rewrite budget_zero by assumption. reflexivity.
    + rewrite size_t_wrap_fits in Hguard by exact Hfits.
      rewrite (budget_succ su h j) by assumption. simpl. f_equal.
      rewrite IH. f_equal. apply eligible_from_top_ext.
      intros i Hi. apply get_region_make_uncommitted_ne. lia.
Qed.

(** X4. With no other thread at work, a pass uncommits exactly the
    highest-indexed eligible regions, in descending order, as many of them as
    whole regions fit between [shrink_until] and the committed size: the
    first [(committed - shrink_until) / region_size_bytes] of them, or all of
    them if there are fewer. *)
Theorem quiet_pass_uncommits_top shrink_before shrink_until h :
  fits_size_t (shrink_until + region_size_bytes) ->
  0 < region_size_bytes ->
  uncommitted_in (pass_log (final (uncommit quiet shrink_before shrink_until h)))
    = take (Z.to_nat ((committed h - shrink_until) / region_size_bytes))
           (filter (fun i => eligible shrink_before (get_region h i) = true)
                   (rev (seq 0 (num_regions h)))).
Proof. intros Hfits Hpos. rewrite uncommit_final. apply quiet_run_top; assumption. Qed.

(** X5. With no other thread at work, a pass uncommits at least one region
    exactly when [has_work] answers true and the committed size is at least
    one region above [shrink_until]: between [shrink_until] and
    [shrink_until + region_size_bytes] a positive answer of [has_work] leads
    to a pass that uncommits nothing. *)
Theorem pass_works_iff_has_work_and_room shrink_before shrink_until h :
  fits_size_t (shrink_until + region_size_bytes) ->
  0 < region_size_bytes ->
  uncommitted_in (pass_log (final (uncommit quiet shrink_before shrink_until h)))
    <> []
  <-> has_work shrink_before shrink_until h = true /\
      shrink_until + region_size_bytes <= committed h.
Proof.
  intros Hfits Hpos. rewrite uncommit_final, quiet_run_top by assumption. split.
  - intros Hne.
    destruct (Z.lt_ge_cases (committed h) (shrink_until + region_size_bytes))
      as [Hlt|Hge].
    { rewrite budget_zero in Hne by assumption. exfalso. apply Hne. reflexivity. }
    split; [|lia].
    destruct (eligible_from_top shrink_before h (num_regions h)) as [|i E] eqn:HE.
    { exfalso. apply Hne. apply take_nil. }
    assert (Hi : i ∈ eligible_from_top shrink_before h (num_regions h))
      by (rewrite HE; apply elem_of_cons; auto).
    apply elem_of_eligible_from_top in Hi as [Hi He].
    unfold has_work. destruct (Z.leb_spec (committed h) shrink_until); [lia|].
    apply has_work_scan_iff. exists i, (get_region h i). split; [|exact He].
    unfold get_region. apply list_lookup_lookup_total_lt. exact Hi.
  - intros [Hw Hle]. apply has_work_inv in Hw as (_ & i & Hi & He).
    rewrite (budget_succ shrink_until h i) by assumption.
    assert (Hin : i ∈ eligible_from_top shrink_before h (num_regions h))
      by (apply elem_of_eligible_from_top; auto).
    destruct (eligible_from_top shrink_before h (num_regions h));
      [inversion Hin|simpl; discriminate].
Qed.

Lemma eligible_from_top_none sb h n :
  (forall i, (i < n)%nat -> eligible sb (get_region h i) = false) ->
  eligible_from_top sb h n = [].
Proof.
  induction n as [|j IH]; intros H; [reflexivity|].
  rewrite eligible_from_top_S, H by lia. apply IH. intros i Hi. apply H. lia.
Qed.

(** X6. With no other thread at work, a second pass with the same parameters
    uncommits nothing: the first one either used up the budget or uncommitted
    every eligible region. *)
Theorem quiet_pass_idempotent shrink_before shrink_until h :
  fits_size_t (shrink_until + region_size_bytes) ->
  0 < region_size_bytes ->
  let h' := pass_heap (final (uncommit quiet shrink_before shrink_until h)) in
  let again := final (uncommit quiet shrink_before shrink_until h') in
  uncommitted_in (pass_log again) = [] /\
  count again = O /\
  committed (pass_heap again) = committed h'.
Proof.
  intros Hfits Hpos. cbv zeta. rewrite !uncommit_final.
  set (n := num_regions h).
  set (st := run quiet shrink_before shrink_until n h).
  destruct (quiet_run_frame shrink_before shrink_until n h)
    as (Hn & _ & _ & Hc & Hin & Hout). fold st in Hn, Hc, Hin, Hout.
  destruct (run_count quiet shrink_before shrink_until n h) as (Hcount & _ & _).
  fold st in Hcount.
  pose proof (quiet_run_top shrink_before shrink_until n h Hfits Hpos) as Htop.
  fold st in Htop.
  rewrite Hn. fold n.
  assert (Hnil : uncommitted_in
                   (pass_log (run quiet shrink_before shrink_until n (pass_heap st)))
                 = []).
  { rewrite quiet_run_top by assumption.
    destruct (le_lt_dec (length (eligible_from_top shrink_before h n))
                        (budget shrink_until h)) as [Hall|Hsome].
    - (* every eligible region was uncommitted *)
      rewrite take_ge in Htop by exact Hall.
      rewrite eligible_from_top_none; [apply take_nil|].
      intros i Hi.
      destruct (decide (i ∈ uncommitted_in (pass_log st))) as [Hd|Hd].
      + destruct (Hin i Hd) as [_ Hf]. unfold eligible. rewrite Hf. reflexivity.
      + rewrite (Hout i Hd).
        destruct (eligible shrink_before (get_region h i)) eqn:He; [|reflexivity].
        exfalso. apply Hd. rewrite Htop.
        apply elem_of_eligible_from_top. auto.
    - (* the budget was used up *)
      assert (Hlen : count st = budget shrink_until h).
      { rewrite Hcount, Htop, length_take. lia. }
      assert (Hz : budget shrink_until (pass_heap st) = O).
      { unfold budget in *. rewrite Hc, Hlen.
        replace (committed h
                 - Z.of_nat (Z.to_nat ((committed h - shrink_until) / region_size_bytes))
                   * region_size_bytes - shrink_until)
          with ((committed h - shrink_until)
                + (- Z.of_nat (Z.to_nat ((committed h - shrink_until)
                                          / region_size_bytes)))
                  * region_size_bytes) by lia.
        rewrite Z.div_add by lia. lia. }
      rewrite Hz. reflexivity. }
  destruct (run_count quiet shrink_before shrink_until n (pass_heap st))
    as (Hcount2 & _ & _).
  destruct (quiet_run_frame shrink_before shrink_until n (pass_heap st))
    as (_ & _ & _ & Hc2 & _).
  rewrite Hnil in Hcount2. simpl in Hcount2.
  split; [exact Hnil|]. split; [exact Hcount2|].
  rewrite Hc2, Hcount2. lia.
Qed.

(** ** More on the controller loop *)

Lemma iteration_at_floor s current last t h :
  committed h <= min_capacity h ->
  committed h <= soft_max_capacity h ->
  pass (run_service_iteration s current last t h) = None /\
  heap_after (run_service_iteration s current last t h) = h.
Proof.
  intros Hmin Hsoft. unfold run_service_iteration, has_work.
  destruct (try_unset (_soft_max_changed t)) as [sm f1].
  destruct (try_unset (_explicit_gc_requested t)) as [gc f2].
  destruct (sm || gc || Qltb _ _); [|auto].
  destruct sm.
  - destruct (Z.leb_spec (committed h) (soft_max_capacity h)); [auto|lia].
  - destruct (Z.leb_spec (committed h) (min_capacity h)); [auto|lia].
Qed.

(** X7. A heap whose committed size is at or below both the min capacity and
    the soft max capacity, and which the other threads leave as it is between
    iterations, is never shrunk: whatever notifications arrive, whatever the
    clock says and however long the loop runs, no iteration runs a pass. *)
Theorem controller_keeps_heap_at_floor start ticks t h :
  committed h <= min_capacity h ->
  committed h <= soft_max_capacity h ->
  Forall (fun it => pass it = None /\ heap_after it = h)
         (run_service start ticks t h).
Proof.
  intros Hmin Hsoft. unfold run_service.
  revert start t. induction ticks as [|k ticks IH]; intros last t; simpl.
  - constructor.
  - destruct (iteration_at_floor (others k) (clock k) last t h Hmin Hsoft)
      as [Hp Hh].
    constructor; [auto|]. rewrite Hh. apply IH.
Qed.

Lemma iteration_within_period s current last t h :
  _soft_max_changed t = UNSET ->
  _explicit_gc_requested t = UNSET ->
  (current - last <= shrink_period)%Q ->
  run_service_iteration s current last t h
    = mkIteration t h last false false None None (double_to_int64 shrink_period).
Proof.
  intros Hsm Hgc Hle. unfold run_service_iteration.
  destruct t as [f1 f2 c]. simpl in *. subst f1 f2. simpl.
  assert (Hr : (double_sub current last <= shrink_period)%Q).
  { unfold double_sub.
    rewrite <- (round_to_double_idempotent
                  (double_div (double_of_uintx ShenandoahUncommitDelay) 1000 / 10)).
    apply round_to_double_mono. exact Hle. }
  apply Qltb_ge in Hr. rewrite Hr. reflexivity.
Qed.

(** X8. Until the clock is more than [shrink_period] past the reading the
    thread started with, and as long as no notification arrives, the loop
    does not look at the heap at all: no iteration calls [has_work] or
    [uncommit].  [shrink_period] is the double of line 47, rounded twice, and
    the elapsed time of line 54 is rounded as well. *)
Theorem controller_waits_a_period start ticks t h :
  _soft_max_changed t = UNSET ->
  _explicit_gc_requested t = UNSET ->
  Forall (fun k => arriving k = [] /\ (clock k - start <= shrink_period)%Q) ticks ->
  Forall (fun it => pass_parameters it = None /\ pass it = None /\
                    heap_after it = h /\ last_shrink_time_after it = start)
         (run_service start ticks t h).
Proof.
  intros Hsm Hgc. unfold run_service.
  induction ticks as [|k ticks IH]; intros Hticks; simpl.
  - constructor.
  - apply Forall_cons in Hticks as [[Harr Hclock] Hticks].
    rewrite (iteration_within_period _ _ _ _ _ Hsm Hgc Hclock). simpl.
    constructor; [auto|]. rewrite Harr. simpl. apply IH. exact Hticks.
Qed.

(** ** More on notifications *)

Global Instance notification_eq_dec : EqDecision notification.
Proof. solve_decision. Defined.

(** X10. Notifications commute and repeat without effect: the thread ends in
    the same state whatever the order in which two notifications arrive, and
    a notification that follows one of its own kind changes nothing. *)
Theorem notifications_commute t a b :
  deliver (deliver t a) b = deliver (deliver t b) a /\
  deliver (deliver t a) a = deliver t a.
Proof. destruct t as [[] [] c], a, b; split; reflexivity. Qed.

Lemma deliver_flag n a t :
  flag_of n (deliver t a) = SET <-> flag_of n t = SET \/ n = a.
Proof.
  destruct t as [[] [] c], n, a; simpl; split; intros H;
    try (destruct H as [H|H]); try congruence; auto.
Qed.

Lemma deliver_all_flag n ns t :
  flag_of n (foldl deliver t ns) = SET <-> flag_of n t = SET \/ n ∈ ns.
Proof.
  revert t. induction ns as [|a ns IH]; intros t; simpl.
  - split; [auto|]. intros [H|H]; [exact H|inversion H].
  - rewrite IH, deliver_flag, elem_of_cons. tauto.
Qed.

Lemma observed_set f : observed f = true <-> f = SET.
Proof. unfold observed. destruct f; simpl; split; congruence. Qed.

(** X11. No notification is lost and none is made up: the iteration that
    follows a burst of notifications, of any kinds and in any number, sees a
    flag exactly when a notification of that kind was in the burst. *)
Theorem notifications_seen_exactly start k0 k1 t h n :
  exists it0 it1,
    run_service start [k0; k1] t h = [it0; it1] /\
    (saw n it1 = true <-> n ∈ arriving k0).
Proof.
  unfold run_service. simpl. eexists _, _. split; [reflexivity|].
  set (it0 := run_service_iteration (others k0) (clock k0) start t h).
  destruct (iteration_consumes n (others k0) (clock k0) start t h)
    as (_ & Hu & _). fold it0 in Hu.
  destruct (iteration_consumes n (others k1) (clock k1)
              (last_shrink_time_after it0)
              (foldl deliver (thread_after it0) (arriving k0)) (heap_after it0))
    as (Hsaw & _ & _).
  rewrite Hsaw, observed_set, deliver_all_flag, Hu.
  split; [intros [H|H]; [discriminate|exact H]|auto].
Qed.

Lemma iteration_urgent s current last t h :
  _soft_max_changed t = SET \/ _explicit_gc_requested t = SET ->
  pass_parameters (run_service_iteration s current last t h)
    = Some (current,
            match _soft_max_changed t with
            | SET => soft_max_capacity h
            | UNSET => min_capacity h
            end).
Proof.
  intros H. unfold run_service_iteration.
  destruct t as [f1 f2 c]. simpl in *.
  destruct f1, f2; simpl; destruct H as [H|H]; try discriminate;
    repeat match goal with
           | |- context [if ?b then _ else _] => destruct b
           end; reflexivity.
Qed.

(** X12. A notification always makes the next iteration act, and at once:
    whatever time has passed since the last pass, the iteration after a burst
    of notifications calls [has_work] with [shrink_before] the clock reading
    (no age is required of a region) and with [shrink_until] the soft max
    capacity if a soft-max notification was in the burst, the min capacity if
    there were only explicit-GC notifications. *)
Theorem notification_makes_next_iteration_urgent start k0 k1 t h :
  arriving k0 <> [] ->
  exists it0 it1,
    run_service start [k0; k1] t h = [it0; it1] /\
    pass_parameters it1
      = Some (clock k1,
              if bool_decide (SoftMaxChanged ∈ arriving k0)
              then soft_max_capacity (heap_after it0)
              else min_capacity (heap_after it0)).
Proof.
  intros Hne. unfold run_service. simpl. eexists _, _. split; [reflexivity|].
  set (it0 := run_service_iteration (others k0) (clock k0) start t h).
  set (t1 := foldl deliver (thread_after it0) (arriving k0)).
  destruct (iteration_consumes SoftMaxChanged (others k0) (clock k0) start t h)
    as (_ & Hsm & _).
  destruct (iteration_consumes ExplicitGCRequested (others k0) (clock k0) start t h)
    as (_ & Hgc & _).
  fold it0 in Hsm, Hgc.
  pose proof (deliver_all_flag SoftMaxChanged (arriving k0) (thread_after it0)) as Fsm.
  pose proof (deliver_all_flag ExplicitGCRequested (arriving k0) (thread_after it0)) as Fgc.
  fold t1 in Fsm, Fgc. rewrite Hsm in Fsm. rewrite Hgc in Fgc. simpl in Fsm, Fgc.
  rewrite iteration_urgent.
  - f_equal. f_equal. case_bool_decide as Hin.
    + rewrite (proj2 Fsm (or_intror Hin)). reflexivity.
    + destruct (_soft_max_changed t1) eqn:E; [reflexivity|].
      exfalso. apply Hin. destruct (proj1 Fsm eq_refl) as [H|H];
        [discriminate|exact H].
  - destruct (arriving k0) as [|a ns] eqn:Ea; [congruence|].
    destruct a.
    + left. apply Fsm. right. apply elem_of_cons. auto.
    + right. apply Fgc. right. apply elem_of_cons. auto.
Qed.

(** ** More on has_work *)

(** X13. [has_work] is monotone in its two parameters: if it finds work for
    [(shrink_before, shrink_until)] it finds work for any later
    [shrink_before] and any lower [shrink_until]; so an urgent request finds
    work whenever a periodic one made at the same time does. *)
Theorem has_work_monotone sb sb' su su' h :
  (sb <= sb')%Q ->
  su' <= su ->
  has_work sb su h = true ->
  has_work sb' su' h = true.
Proof.
  intros Hsb Hsu Hw. apply has_work_inv in Hw as (Hlt & i & Hi & He).
  unfold has_work. destruct (Z.leb_spec (committed h) su'); [lia|].
  apply has_work_scan_iff. exists i, (get_region h i). split.
  - unfold get_region. apply list_lookup_lookup_total_lt. exact Hi.
  - apply eligible_iff in He as [Hc Ht]. apply eligible_iff.
    split; [exact Hc|]. eapply Qlt_le_trans; eassumption.
Qed.

End Thread.

(** ** The scenarios, evaluated *)

(** The periodic pass over [example_heap] at time 5 with a delay of 1000 ms,
    and the state in which it arrives at region 9. *)
Definition example_pass : pass_result :=
  uncommit example_region_size quiet
           (double_sub 5 (double_div (double_of_uintx 1000) 1000))
           (10 * example_region_size) example_heap.

Definition example_arrival : pass_state :=
  mkPass (make_uncommitted example_region_size example_heap 10) 1
         [mkEvent 11 released Skipped; mkEvent 10 (empty_since 0) Uncommitted].

(** C3, at [example_heap]: eleven regions committed, ten wanted, region 10
    empty since 0. *)
Lemma has_work_iff_witness :
  has_work 4 (10 * example_region_size) example_heap = true.
Proof.
  apply (proj2 (has_work_iff 4 (10 * example_region_size) example_heap)).
  split; [vm_compute; reflexivity|].
  exists 10%nat. split; [vm_compute; lia|].
  split; [reflexivity|]. vm_compute. reflexivity.
Defined.

(** C2, at a periodic iteration over [example_heap]: the threshold is 4. *)
Lemma pass_parameters_exact_witness :
  let it := run_service_iteration 1000 example_region_size quiet 5 0
              idle_thread example_heap in
  let threshold := double_sub 5 (double_div (double_of_uintx 1000) 1000) in
  pass_parameters it = Some (threshold, min_capacity example_heap) /\
  (threshold == 4)%Q /\
  forall p, pass it = Some p ->
    p = uncommit example_region_size quiet threshold
          (min_capacity example_heap) example_heap.
Proof.
  cbv zeta. split; [reflexivity|]. split; [vm_compute; reflexivity|].
  apply (pass_parameters_exact 1000 example_region_size quiet 5 0
           idle_thread example_heap
           (double_sub 5 (double_div (double_of_uintx 1000) 1000))
           (min_capacity example_heap)).
  reflexivity.
Defined.

(** The threshold is a rounded difference: with a delay of 300 ms at the
    clock reading [0x1.3333333333334p-2], one step above the double nearest
    to 0.3, it is [2 ^ -54], and not the exact difference. *)
Lemma shrink_before_is_rounded :
  let current := (5404319552844596 # 18014398509481984)%Q in
  is_double current /\
  (exists su, pass_parameters
                (run_service_iteration 300 example_region_size quiet current 0
                   idle_thread example_heap)
              = Some (double_sub current (double_div (double_of_uintx 300) 1000), su)) /\
  (double_sub current (double_div (double_of_uintx 300) 1000)
     == 1 # 18014398509481984)%Q /\
  (current - 300 / 1000 == 1 # 22517998136852480)%Q.
Proof.
  cbv zeta. split; [vm_compute; reflexivity|].
  split; [eexists; vm_compute; reflexivity|].
  split; vm_compute; reflexivity.
Qed.

Lemma quiet_commits_only : commits_only quiet.
Proof. repeat split; intros; simpl; lia. Defined.

(** C1, at the same iteration: the pass leaves ten regions committed. *)
Lemma committed_lower_bound_witness :
  pass (run_service_iteration 1000 example_region_size quiet 5 0
          idle_thread example_heap)
    = Some example_pass /\
  min_capacity example_heap
    <= committed (pass_heap (final example_pass)).
Proof.
  assert (Hp : pass (run_service_iteration 1000 example_region_size quiet 5 0
                       idle_thread example_heap)
               = Some example_pass)
    by (vm_compute; reflexivity).
  split; [exact Hp|].
  destruct (committed_lower_bound 1000 example_region_size quiet 5 0
              idle_thread example_heap example_pass)
    as (sb & su & _ & _ & Hle & _ & Hmin).
  - exact quiet_commits_only.
  - vm_compute. split; [discriminate|reflexivity].
  - vm_compute. split; [discriminate|reflexivity].
  - exact Hp.
  - rewrite <- (Hmin eq_refl). exact Hle.
Defined.

Lemma quiet_stays_young sb i : stays_young sb i quiet.
Proof. repeat split; intros; assumption. Defined.

Lemma quiet_stays_eligible sb i : stays_eligible sb i quiet.
Proof. repeat split; intros; assumption. Defined.

(** C4, at [aged_heap] at time 10 with a delay of 1000 ms: region 6, empty
    since 8, is uncommitted; region 5, empty since 9.5, is not. *)
Lemma periodic_age_respect_witness :
  let it := run_service_iteration 1000 example_region_size quiet 10 0
              idle_thread aged_heap in
  exists p, pass it = Some p /\
            uncommitted_in (pass_log (final p)) = [6%nat] /\
            5%nat ∉ uncommitted_in (pass_log (final p)).
Proof.
  cbv zeta.
  exists (uncommit example_region_size quiet (double_sub 10 (double_div (double_of_uintx 1000) 1000))
            (5 * example_region_size) aged_heap).
  assert (Hp : pass (run_service_iteration 1000 example_region_size quiet 10 0
                       idle_thread aged_heap)
               = Some (uncommit example_region_size quiet
                         (double_sub 10 (double_div (double_of_uintx 1000) 1000))
                         (5 * example_region_size) aged_heap))
    by (vm_compute; reflexivity).
  split; [exact Hp|]. split; [vm_compute; reflexivity|].
  apply (proj2 (periodic_age_respect 1000 example_region_size quiet 10 0
                  idle_thread aged_heap _ eq_refl eq_refl Hp) 5%nat).
  - apply quiet_stays_young.
  - vm_compute. discriminate.
Defined.

(** C4 as stated fails: in a periodic pass over [roomy_heap] at time 5 with a
    delay of 1000 ms (threshold 4), region 11 passes the unlocked check with
    empty time 0, is allocated from and emptied again at time 6 before the
    pass has the lock, and is uncommitted with empty time 6. *)
Lemma periodic_age_counterexample :
  let s := refill_at_lock 11 6 in
  let threshold := double_sub 5 (double_div (double_of_uintx 1000) 1000) in
  let it := run_service_iteration 1000 example_region_size s 5 0
              idle_thread roomy_heap in
  pass_parameters it = Some (threshold, min_capacity roomy_heap) /\
  (threshold == 4)%Q /\
  get_region (at_lock s 11 roomy_heap) 11 = empty_since 6 /\
  (threshold <= empty_time (get_region (at_lock s 11 roomy_heap) 11))%Q /\
  (fun p => uncommitted_in (pass_log (final p))) <$> pass it
    = Some [11%nat; 10%nat] /\
  get_region (heap_after it) 11 = mkRegion false 6.
Proof.
  cbv zeta. split; [reflexivity|]. split; [vm_compute; reflexivity|].
  split; [reflexivity|]. split; [vm_compute; discriminate|].
  split; vm_compute; reflexivity.
Defined.

(** C5, at [roomy_heap]: two regions' worth above the min capacity, regions
    11 and 10 are uncommitted in that order. *)
Lemma uncommit_direction_witness :
  exists l1 l2 l3,
    uncommitted_in
      (pass_log (final (uncommit example_region_size quiet 4
                          (10 * example_region_size) roomy_heap)))
    = l1 ++ 11%nat :: l2 ++ 10%nat :: l3.
Proof.
  apply (proj2 (uncommit_direction example_region_size quiet 4
                  (10 * example_region_size) roomy_heap) 11%nat 10%nat).
  - lia.
  - reflexivity.
  - apply quiet_stays_eligible.
  - replace (uncommitted_in _) with [11%nat; 10%nat] by (vm_compute; reflexivity).
    apply elem_of_cons. right. apply elem_of_cons. left. reflexivity.
Defined.

(** C6, at the state in which [example_pass] arrives at region 9: ten regions
    are committed, ten are wanted, and the pass ends. *)
Lemma budget_guard_breaks_witness :
  let st' := uncommit_loop example_region_size quiet 4
               (10 * example_region_size) 10
               example_arrival in
  pass_heap st' = pass_heap example_arrival /\
  count st' = 1%nat /\
  uncommitted_in (pass_log st') = [10%nat] /\
  st' = final example_pass.
Proof.
  cbv zeta.
  destruct (budget_guard_breaks example_region_size quiet 4
              (10 * example_region_size) 9
              example_arrival)
    as (Hh & Hc & _ & Hu & _).
  - reflexivity.
  - reflexivity.
  - vm_compute. reflexivity.
  - split; [exact Hh|]. split; [exact Hc|]. split; [exact Hu|].
    vm_compute. reflexivity.
Defined.

(** C7 as stated fails: in S4 with the region as the unit, the periodic pass
    over [example_heap] uncommits one region, not zero. *)
Lemma budget_guard_counterexample :
  min_capacity example_heap = 10 * example_region_size /\
  committed example_heap = 11 * example_region_size /\
  pass (run_service_iteration 1000 example_region_size quiet 5 0
          idle_thread example_heap)
    = Some example_pass /\
  uncommitted_in (pass_log (final example_pass))
    = [10%nat] /\
  count (final example_pass) <> O.
Proof.
  split; [reflexivity|]. split; [reflexivity|].
  split; [vm_compute; reflexivity|]. split; [vm_compute; reflexivity|].
  vm_compute. discriminate.
Defined.

(** C7, amended, at the same iteration. *)
Lemma budget_guard_scenario_witness :
  count (final example_pass) = 1%nat /\
  committed (pass_heap (final example_pass))
    = min_capacity example_heap.
Proof.
  destruct (budget_guard_scenario 1000 example_region_size 5 0 idle_thread
              example_heap example_pass
              example_region_size) as [H _].
  - reflexivity.
  - reflexivity.
  - reflexivity.
  - reflexivity.
  - reflexivity.
  - vm_compute. split; [discriminate|reflexivity].
  - vm_compute. reflexivity.
  - destruct (H eq_refl) as (Hc & Hm & _). split; assumption.
Defined.

(** C8, at three soft-max notifications in a row. *)
Lemma notifications_coalesce_witness :
  exists it0 it1 it2,
    run_service 1000 example_region_size 0
      [mkTick 1 quiet [SoftMaxChanged; SoftMaxChanged; SoftMaxChanged];
       mkTick 2 quiet []; mkTick 3 quiet []]
      idle_thread example_heap = [it0; it1; it2] /\
    saw SoftMaxChanged it1 = true /\
    saw SoftMaxChanged it2 = false /\
    notify_all_calls (thread_after it1) = S (notify_all_calls (thread_after it0)).
Proof.
  apply (proj2 (notifications_coalesce 1000 example_region_size 0
                  (mkTick 1 quiet [SoftMaxChanged; SoftMaxChanged; SoftMaxChanged])
                  (mkTick 2 quiet []) (mkTick 3 quiet [])
                  3%nat SoftMaxChanged idle_thread example_heap
                  ltac:(lia) eq_refl eq_refl)).
Defined.

(** C9.  The argument of [locker.wait] is [shrink_period] cut down to an
    integer.  With a delay of 1000 ms the period is the double nearest to a
    tenth of a second and the argument is 0, which is a tenth of a second in
    no unit of time; with the delay of 300000 ms the argument is 30, the
    period in seconds. *)
Theorem wait_timeout_truncated region_size s current last t h :
  (shrink_period 1000 == 3602879701896397 # 36028797018963968)%Q /\
  wait_timeout (run_service_iteration 1000 region_size s current last t h) = 0 /\
  (forall unit : Q,
     ~ (inject_Z (wait_timeout
                    (run_service_iteration 1000 region_size s current last t h))
        * unit == shrink_period 1000)%Q) /\
  (shrink_period 300000 == 30)%Q /\
  wait_timeout (run_service_iteration 300000 region_size s current last t h) = 30.
Proof.
  rewrite !iteration_wait_timeout.
  split; [vm_compute; reflexivity|]. split; [vm_compute; reflexivity|].
  split; [|split; vm_compute; reflexivity].
  intros unit H.
  replace (double_to_int64 (shrink_period 1000)) with 0 in H
    by (vm_compute; reflexivity).
  rewrite Qmult_0_l in H. vm_compute in H. discriminate H.
Qed.

(** C10 as stated fails: in a pass over [example_heap] region 9 passes the
    unlocked check, is emptied again at time 20 before the pass has the lock
    (so it is empty committed, with an empty time not before
    [shrink_before = 4]), and is not uncommitted: the guard ends the pass. *)
Lemma recheck_budget_counterexample :
  let s := refill_at_lock 9 20 in
  let st := final (uncommit example_region_size s 4
                     (10 * example_region_size) example_heap) in
  pass_log st = [mkEvent 11 released Skipped;
                 mkEvent 10 (empty_since 0) Uncommitted;
                 mkEvent 9 (empty_since 0) BudgetBreak] /\
  eligible 4 (empty_since 0) = true /\
  get_region (pass_heap st) 9 = empty_since 20 /\
  (4 <= empty_time (get_region (pass_heap st) 9))%Q /\
  9%nat ∉ uncommitted_in (pass_log st).
Proof.
  cbv zeta.
  split; [vm_compute; reflexivity|]. split; [reflexivity|].
  split; [vm_compute; reflexivity|]. split; [vm_compute; discriminate|].
  replace (uncommitted_in _) with [10%nat] by (vm_compute; reflexivity).
  intros H. apply list_elem_of_singleton in H. discriminate H.
Defined.

(** C10, amended, at [roomy_heap]: region 11 is emptied again at time 20
    before the pass has the lock, and it is uncommitted. *)
Lemma recheck_ignores_age_witness :
  let s := refill_at_lock 11 20 in
  let st := mkPass roomy_heap O [mkEvent 12 released Skipped] in
  (4 <= empty_time (get_region (at_lock s 11 roomy_heap) 11))%Q /\
  11%nat ∈ uncommitted_in
             (pass_log (uncommit_loop example_region_size s 4
                          (10 * example_region_size) 12 st)).
Proof.
  cbv zeta. split; [vm_compute; discriminate|].
  apply (recheck_ignores_age example_region_size (refill_at_lock 11 20) 4
           (10 * example_region_size) 11
           (mkPass roomy_heap O [mkEvent 12 released Skipped])).
  - reflexivity.
  - reflexivity.
  - vm_compute. discriminate.
  - vm_compute. discriminate.
Defined.

(** ** More scenarios, evaluated *)

(** [example_heap] with one region less committed: at the min capacity. *)
Definition floor_heap : ShenandoahHeap :=
  mkHeap (replicate 6 in_use ++ replicate 4 (empty_since 0) ++ [released; released])
         (10 * example_region_size)
         (20 * example_region_size)
         (10 * example_region_size).

Definition busy_ticks : list tick :=
  [mkTick 100 quiet [SoftMaxChanged; ExplicitGCRequested];
   mkTick 200 quiet [ExplicitGCRequested];
   mkTick 300 quiet []].

Definition early_ticks : list tick :=
  [mkTick 10 quiet []; mkTick 20 quiet []; mkTick 30 quiet []].

Lemma example_fits : fits_size_t (10 * example_region_size + example_region_size).
Proof. vm_compute. split; [discriminate|reflexivity]. Defined.

Lemma example_region_size_pos : 0 < example_region_size.
Proof. reflexivity. Defined.

(** X9, at the periodic pass over [example_heap] at time 5. *)
Lemma no_pass_uncommits_the_future_witness :
  (empty_time (empty_since 0) < 5)%Q.
Proof.
  apply (no_pass_uncommits_the_future 1000 example_region_size quiet 5 0
           idle_thread example_heap example_pass
           (mkEvent 10 (empty_since 0) Uncommitted)).
  - discriminate.
  - vm_compute. reflexivity.
  - vm_compute. reflexivity.
  - replace (pass_log (final example_pass))
      with [mkEvent 11 released Skipped; mkEvent 10 (empty_since 0) Uncommitted;
            mkEvent 9 (empty_since 0) BudgetBreak] by (vm_compute; reflexivity).
    apply elem_of_cons. right. apply elem_of_cons. left. reflexivity.
  - reflexivity.
Defined.

(** X4, at [roomy_heap]: two regions' worth of budget, four eligible
    regions. *)
Lemma quiet_pass_uncommits_top_witness :
  uncommitted_in
    (pass_log (final (uncommit example_region_size quiet 4
                        (10 * example_region_size) roomy_heap)))
  = [11%nat; 10%nat].
Proof.
  rewrite (quiet_pass_uncommits_top example_region_size 4
             (10 * example_region_size) roomy_heap
             example_fits example_region_size_pos).
  vm_compute. reflexivity.
Defined.

(** X5, at [example_heap]: work, and room for one region. *)
Lemma pass_works_iff_has_work_and_room_witness :
  uncommitted_in
    (pass_log (final (uncommit example_region_size quiet 4
                        (10 * example_region_size) example_heap)))
  <> [].
Proof.
  apply (proj2 (pass_works_iff_has_work_and_room example_region_size 4
                  (10 * example_region_size) example_heap
                  example_fits example_region_size_pos)).
  split; [vm_compute; reflexivity|vm_compute; discriminate].
Defined.

(** X6, at [roomy_heap]. *)
Lemma quiet_pass_idempotent_witness :
  count (final (uncommit example_region_size quiet 4 (10 * example_region_size)
                  (pass_heap (final (uncommit example_region_size quiet 4
                                       (10 * example_region_size) roomy_heap)))))
  = O.
Proof.
  apply (quiet_pass_idempotent example_region_size 4 (10 * example_region_size)
           roomy_heap example_fits example_region_size_pos).
Defined.

(** X7, at [floor_heap] under a stream of notifications. *)
Lemma controller_keeps_heap_at_floor_witness :
  Forall (fun it => pass it = None /\ heap_after it = floor_heap)
         (run_service 1000 example_region_size 0 busy_ticks idle_thread floor_heap).
Proof.
  apply (controller_keeps_heap_at_floor 1000 example_region_size 0 busy_ticks
           idle_thread floor_heap).
  - vm_compute. discriminate.
  - vm_compute. discriminate.
Defined.

(** X8, with the delay of 300000 ms: a period of 30 s. *)
Lemma controller_waits_a_period_witness :
  Forall (fun it => pass_parameters it = None /\ pass it = None /\
                    heap_after it = example_heap /\
                    last_shrink_time_after it = 0%Q)
         (run_service 300000 example_region_size 0 early_ticks idle_thread
            example_heap).
Proof.
  apply (controller_waits_a_period 300000 example_region_size 0 early_ticks
           idle_thread example_heap eq_refl eq_refl).
  repeat constructor; vm_compute; discriminate.
Defined.

(** X12, at a burst of two notifications. *)
Lemma notification_makes_next_iteration_urgent_witness :
  exists it0 it1,
    run_service 300000 example_region_size 0
      [mkTick 1 quiet [ExplicitGCRequested; SoftMaxChanged]; mkTick 2 quiet []]
      idle_thread example_heap = [it0; it1] /\
    pass_parameters it1
      = Some (2%Q,
              if bool_decide (SoftMaxChanged ∈ [ExplicitGCRequested; SoftMaxChanged])
              then soft_max_capacity (heap_after it0)
              else min_capacity (heap_after it0)).
Proof.
  apply (notification_makes_next_iteration_urgent 300000 example_region_size 0
           (mkTick 1 quiet [ExplicitGCRequested; SoftMaxChanged])
           (mkTick 2 quiet []) idle_thread example_heap).
  discriminate.
Defined.

(** X13, at [example_heap]: from a periodic request to an urgent one. *)
Lemma has_work_monotone_witness :
  has_work 5 (10 * example_region_size) example_heap = true.
Proof.
  apply (has_work_monotone 4 5 (10 * example_region_size)
           (10 * example_region_size) example_heap).
  - vm_compute. discriminate.
  - lia.
  - vm_compute. reflexivity.
Defined.
